(** * md-ui: the GPU particle pipeline, the chain metadata and the
    playback page of the molecular viewer, embedded from the TypeScript and
    WGSL sources.

    Conventions of the embedding.
    - A JavaScript [number] that the source only ever uses as a count, an
      index or an array length is an [N] (an [option N] where it can turn
      into [NaN]); the one float computation on such a count,
      [Math.ceil(atomCount / 64)], is carried out in [Q]: a division by 64
      is exact in binary64 for every array length.
    - Coordinates and colour channels are binary64 floats ([PrimFloat]).
    - Calls on the WebGPU device are recorded as a list of commands, in the
      order in which the source issues them.
    - A React component is the record of its state and refs; a handler, an
      effect or a callback is a function from record to record, and a
      suspended [await] is an entry in the record that a later event takes
      up. *)

From Stdlib Require Import ZArith NArith QArith Qround Lia Ascii String.
From Stdlib Require Import Floats.PrimFloat.
From Stdlib Require Floats.SpecFloat Floats.FloatOps.
From stdpp Require Import gmap strings pretty list fin_maps sorting.

Open Scope N_scope.

(** ** JavaScript values and objects

    The sources keep two dictionaries in plain objects ([{}]): the chain
    groups of a frame and the residue-name counters of a chain. A plain
    object inherits from [Object.prototype], and [Object.entries] lists its
    own keys in the order of [OrdinaryOwnPropertyKeys]: array indices first,
    in ascending numeric order, then the other strings in the order in which
    they were created. Both facts are part of the model. *)

Module Js.

(** A number that is an integer or one of the two infinities: the values
    the residue-index bounds take. *)
Inductive number :=
| NegInfinity
| Finite (z : Z)
| Infinity.

Definition Math_min (a b : number) : number :=
  match a, b with
  | NegInfinity, _ | _, NegInfinity => NegInfinity
  | Infinity, c | c, Infinity => c
  | Finite m, Finite n => Finite (Z.min m n)
  end.

Definition Math_max (a b : number) : number :=
  match a, b with
  | Infinity, _ | _, Infinity => Infinity
  | NegInfinity, c | c, NegInfinity => c
  | Finite m, Finite n => Finite (Z.max m n)
  end.

(** [a === b] on such numbers. *)
Definition strict_eq (a b : number) : bool :=
  match a, b with
  | NegInfinity, NegInfinity | Infinity, Infinity => true
  | Finite m, Finite n => (m =? n)%Z
  | _, _ => false
  end.

(** The string-keyed properties every plain object inherits from
    [Object.prototype] in a browser. *)
Definition Object_prototype_keys : list string :=
  [ "constructor"; "__proto__"; "hasOwnProperty"; "isPrototypeOf";
    "propertyIsEnumerable"; "toLocaleString"; "toString"; "valueOf";
    "__defineGetter__"; "__defineSetter__"; "__lookupGetter__";
    "__lookupSetter__" ]%string.

Definition inherited (k : string) : bool :=
  bool_decide (k ∈ Object_prototype_keys).

(** What the read [obj[k]] finds: an own property, a property of the
    prototype (a function, or the prototype itself for ["__proto__"]: a
    truthy value in each case), or nothing ([undefined]). *)
Inductive property (V : Type) :=
| Own (v : V)
| Inherited
| Undefined.
Arguments Own {V} v.
Arguments Inherited {V}.
Arguments Undefined {V}.

Definition digit (c : ascii) : option N :=
  let n := N_of_ascii c in
  if (48 <=? n) && (n <=? 57) then Some (n - 48) else None.

Fixpoint digits (acc : N) (s : string) : option N :=
  match s with
  | EmptyString => Some acc
  | String c s' =>
      match digit c with
      | Some d => digits (acc * 10 + d) s'
      | None => None
      end
  end.

(** [k] is an array index when it is the canonical decimal form of an
    integer below 2^32 - 1. *)
Definition array_index (k : string) : option N :=
  match k with
  | EmptyString => None
  | _ =>
      match digits 0 k with
      | Some n =>
          if bool_decide (pretty n = k) && (n <? 2 ^ 32 - 1) then Some n
          else None
      | None => None
      end
  end.

(** An object whose key order matters: its own properties in creation
    order. *)
Definition object (V : Type) : Type := list (string * V).

Fixpoint own {V} (o : object V) (k : string) : option V :=
  match o with
  | [] => None
  | (k', v) :: o' => if String.eqb k' k then Some v else own o' k
  end.

(** [o[k]] *)
Definition get {V} (o : object V) (k : string) : property V :=
  match own o k with
  | Some v => Own v
  | None => if inherited k then Inherited else Undefined
  end.

Fixpoint put {V} (o : object V) (k : string) (v : V) : object V :=
  match o with
  | [] => [(k, v)]
  | (k', v') :: o' =>
      if String.eqb k' k then (k, v) :: o' else (k', v') :: put o' k v
  end.

(** [o[k] = v] for a primitive [v]. The key ["__proto__"] reaches the
    setter of [Object.prototype], which ignores a primitive; every other
    key becomes (or stays) an own property. *)
Definition assign {V} (o : object V) (k : string) (v : V) : object V :=
  if String.eqb k "__proto__" then o else put o k v.

(** [Array.prototype.sort] with its comparator, for a comparator that
    returns a number: [x] is placed before [y] when [comparefn x y] is
    negative, and equal elements keep their order (the sort is stable). With
    a consistent comparator every conforming sort returns this list. *)
Fixpoint sorted_insert {A} (comparefn : A → A → Z) (x : A) (l : list A) : list A :=
  match l with
  | [] => [x]
  | y :: l' =>
      if (comparefn x y <=? 0)%Z then x :: y :: l'
      else y :: sorted_insert comparefn x l'
  end.

Fixpoint Array_sort {A} (comparefn : A → A → Z) (l : list A) : list A :=
  match l with
  | [] => []
  | x :: l' => sorted_insert comparefn x (Array_sort comparefn l')
  end.

(** The keys of [o] that are array indices, with their index. *)
Definition indexed {V} (o : object V) : list (N * (string * V)) :=
  omap (λ kv, match array_index kv.1 with
              | Some i => Some (i, kv)
              | None => None
              end) o.

(** [Object.entries(o)] *)
Definition Object_entries {V} (o : object V) : list (string * V) :=
  (Array_sort (λ a b, Z.of_N a.1 - Z.of_N b.1)%Z (indexed o)).*2
  ++ List.filter (λ kv, match array_index kv.1 with
                        | Some _ => false
                        | None => true
                        end) o.

End Js.

(** ** types/simulation.ts *)

Module Simulation.

Record RGBColor := { r : float; g : float; b : float }.

Record Coordinates := { cx : float; cy : float; cz : float }.

(** [residue_index?: number]: absent or an integer. *)
Record Atom := {
  x : float;
  y : float;
  z : float;
  element : string;
  name : string;
  residue : string;
  chain : string;
  residue_index : option Z;
  color : RGBColor
}.

Record SimulationBounds := {
  min : Coordinates;
  max : Coordinates;
  center : Coordinates
}.

Record SimulationMetadata := {
  source : string;
  title : option string;
  num_frames : N;
  num_atoms : N;
  bounds : SimulationBounds
}.

Record TrajectoryData := {
  metadata : SimulationMetadata;
  frames : list (list Atom)
}.

End Simulation.

(** ** types/chainMetadata.ts *)

Module ChainMetadata.
Import Js Simulation.

Record Range := { start : number; end_ : number }.

Record ChainInfo := {
  chainId : string;
  atomCount : N;
  residueCount : N;
  residueRange : Range;
  commonResidues : list string
}.

(** The first [forEach]: the set of residue indices that are present. *)
Definition uniqueResidues (atoms : list Atom) : gset Z :=
  foldl (λ s atom,
           match residue_index atom with
           | Some i => {[ i ]} ∪ s
           | None => s
           end) ∅ atoms.

(** The second [forEach]: [(minResidue, maxResidue)]. *)
Definition residueBounds (atoms : list Atom) : number * number :=
  foldl (λ mm atom,
           match residue_index atom with
           | Some i => (Math_min mm.1 (Finite i), Math_max mm.2 (Finite i))
           | None => mm
           end) (Infinity, NegInfinity) atoms.

(** A counter of [residueFrequency]: a number, or (once a residue name
    has met a property of the prototype) a non-empty string that does not
    read as a number. *)
Inductive counter :=
| Num (n : Z)
| Text.

(** [(residueFrequency[resName] || 0) + 1] *)
Definition bump (p : property counter) : counter :=
  match p with
  | Own (Num n) => Num (n + 1)
  | Own Text => Text
  | Inherited => Text
  | Undefined => Num 1
  end.

(** The third [forEach]. *)
Definition residueFrequency (atoms : list Atom) : object counter :=
  foldl (λ o atom,
           let resName := residue atom in
           assign o resName (bump (get o resName))) [] atoms.

(** [([, a], [, b]) => b - a], with a [NaN] result read as [+0] as
    [Array.prototype.sort] does. When some counter is [Text] the
    comparator is not consistent and the order [sort] produces is left to
    the implementation; the list computed here is then only one of the
    possible results. *)
Definition by_frequency (e1 e2 : string * counter) : Z :=
  match e1.2, e2.2 with
  | Num a, Num b => b - a
  | _, _ => 0
  end.

Definition commonResiduesOf (atoms : list Atom) : list string :=
  (take 5 (Array_sort by_frequency (Object_entries (residueFrequency atoms)))).*1.

Definition calculateChainInfo (atoms : list Atom) (chainId : string) : ChainInfo :=
  let atomCount := N.of_nat (length atoms) in
  let residueCount := N.of_nat (size (uniqueResidues atoms)) in
  let minResidue := (residueBounds atoms).1 in
  let maxResidue := (residueBounds atoms).2 in
  {| chainId := chainId;
     atomCount := atomCount;
     residueCount := residueCount;
     residueRange :=
       {| start := if strict_eq minResidue Infinity then Finite 0 else minResidue;
          end_ := if strict_eq maxResidue NegInfinity then Finite 0 else maxResidue |};
     commonResidues := commonResiduesOf atoms |}.

End ChainMetadata.

(** ** components/MolecularView.tsx: the chain metadata of the current frame *)

Module MolecularView.
Import Js Simulation ChainMetadata.

Inductive outcome (A : Type) :=
| Returns (a : A)
| TypeError.
Arguments Returns {A} a.
Arguments TypeError {A}.

(** [chainGroups[k]] on the object of chain groups, whose own properties
    are kept in a finite map: their order plays no part in what is
    computed from them. *)
Definition read (chainGroups : gmap string (list Atom)) (k : string)
  : property (list Atom) :=
  match chainGroups !! k with
  | Some l => Own l
  | None => if inherited k then Inherited else Undefined
  end.

(** Every array is truthy, and so is every inherited property. *)
Definition falsy (p : property (list Atom)) : bool :=
  match p with
  | Undefined => true
  | _ => false
  end.

(** The body of [atoms.forEach(atom => ...)]. [push] exists on arrays
    only: on an inherited property the call raises. *)
Definition group_atom (chainGroups : gmap string (list Atom)) (atom : Atom)
  : outcome (gmap string (list Atom)) :=
  let chainGroups :=
    if falsy (read chainGroups (chain atom))
    then <[chain atom := []]> chainGroups
    else chainGroups in
  match read chainGroups (chain atom) with
  | Own l => Returns (<[chain atom := l ++ [atom]]> chainGroups)
  | _ => TypeError
  end.

Definition chainGroupsOf (atoms : list Atom) : outcome (gmap string (list Atom)) :=
  foldl (λ acc atom,
           match acc with
           | Returns chainGroups => group_atom chainGroups atom
           | TypeError => TypeError
           end) (Returns ∅) atoms.

(** [chainMetadataMap], for [atoms = trajectory?.frames?.[currentFrame]]. *)
Definition chainMetadataMap (atoms : option (list Atom))
  : outcome (gmap string ChainInfo) :=
  match atoms with
  | None => Returns ∅
  | Some atoms =>
      match chainGroupsOf atoms with
      | Returns chainGroups =>
          Returns (map_imap (λ chainId chainAtoms,
                               Some (calculateChainInfo chainAtoms chainId))
                            chainGroups)
      | TypeError => TypeError
      end
  end.

(** [trajectory?.frames?.[currentFrame]]: the atoms of the frame on
    display, [None] when the index is [NaN] or past the last frame. *)
Definition currentAtoms (trajectory : TrajectoryData) (currentFrame : option N)
  : option (list Atom) :=
  match currentFrame with
  | Some i => frames trajectory !! N.to_nat i
  | None => None
  end.

End MolecularView.

(** ** computePipeline.ts *)

Module ComputePipeline.

(** Handles of the WebGPU objects the pass works on. *)
Record GPUComputePipeline := { pipelineLabel : string }.
Record GPUBindGroup := { bindGroupLabel : string }.

(** The calls [runComputePass] makes on the encoder, the pass and the
    queue. *)
Inductive command :=
| createCommandEncoder (label : string)
| beginComputePass (label : string)
| setPipeline (p : GPUComputePipeline)
| setBindGroup (index : N) (g : GPUBindGroup)
| dispatchWorkgroups (count : Z)
| endPass
| finish
| submit.

Definition workgroupSize : Z := 64.

(** [Math.ceil(atomCount / workgroupSize)] *)
Definition numWorkgroups (atomCount : N) : Z :=
  Qceiling (inject_Z (Z.of_N atomCount) / inject_Z workgroupSize).

Definition runComputePass (pipeline : GPUComputePipeline)
    (bindGroup : GPUBindGroup) (atomCount : N) : list command :=
  [ createCommandEncoder "Atom Update Commands";
    beginComputePass "Atom Update Pass";
    setPipeline pipeline;
    setBindGroup 0 bindGroup;
    dispatchWorkgroups (numWorkgroups atomCount);
    endPass;
    finish;
    submit ].

Definition is_dispatch (c : command) : bool :=
  match c with dispatchWorkgroups _ => true | _ => false end.

Definition dispatches (cs : list command) : list command :=
  List.filter is_dispatch cs.

End ComputePipeline.

(** ** shaders/atomUpdate.wgsl *)

Module AtomUpdate.

Record vec4 := { vx : float; vy : float; vz : float; vw : float }.

(** The two storage buffers bound to the kernel. *)
Record buffers := { atomsIn : list vec4; atomsOut : list vec4 }.

(** One access of an invocation to a buffer element. *)
Inductive access :=
| Load_atomsIn (i : N)
| Store_atomsOut (i : N).

Definition arrayLength (a : list vec4) : N := N.of_nat (length a).

(** [fn main(@builtin(global_invocation_id) id: vec3<u32>)]: the buffers
    after the invocation and the accesses it made. [idx] is [id.x]. A store
    past the end of [atomsOut] is dropped, which is one of the behaviours
    WGSL allows there. *)
Definition main (idx : N) (b : buffers) : buffers * list access :=
  let atomIndex := idx in
  if arrayLength (atomsIn b) <=? atomIndex then (b, [])
  else
    match atomsIn b !! N.to_nat atomIndex with
    | Some currentPosition =>
        ({| atomsIn := atomsIn b;
            atomsOut := <[N.to_nat atomIndex := currentPosition]> (atomsOut b) |},
         [Load_atomsIn atomIndex; Store_atomsOut atomIndex])
    | None => (b, [])
    end.

End AtomUpdate.

(** ** components/GPUAtomRenderer.tsx: the effects, the frame callback and
    the readback *)

Module GPUAtomRenderer.
Import ComputePipeline.

(** A buffer of the device, named by the number of its creation. *)
Record GPUBuffer := { bufferId : nat; byteLength : N }.

(** The calls the component makes on [navigator.gpu], the adapter, the
    device, its buffers and the network, and what it does on the mesh.
    [copyBufferToBuffer] stands for the command encoder that is created for
    the one copy, finished and submitted; [setInstanceMatrices] for the
    loop of [setMatrixAt] over the atoms with the update flag that follows
    it. *)
Inductive action :=
| requestAdapter
| requestDevice
| createBuffer (b : GPUBuffer) (mappedAtCreation : bool)
| getMappedRange (b : GPUBuffer)
| unmap (b : GPUBuffer)
| fetch (url : string)
| createShaderModule (label : string)
| createComputePipeline (label : string)
| getBindGroupLayout (index : N)
| createBindGroup (label : string) (input output : GPUBuffer)
| computePass (cs : list command)
| copyBufferToBuffer (source destination : GPUBuffer) (size : N)
| mapAsync (b : GPUBuffer)
| setInstanceMatrices (count : N)
| destroy (b : GPUBuffer).

(** The component: whether [navigator.gpu] is there, whether the component
    is mounted, its props ([atoms.length] and [enabled] as of the last
    render), its state, its refs, the calls that are suspended at an
    [await], the number of buffers created and the log of its actions.
    [pending] holds the staging buffers whose [mapAsync] has not resolved
    yet, the readbacks in flight, each with the [atoms.length] its closure
    has captured. *)
Record component := {
  navigator_gpu : bool;
  mounted : bool;
  atoms_length : N;
  enabled : bool;
  gpuContext : bool;
  pipelineRef : option GPUComputePipeline;
  bindGroupRef : option GPUBindGroup;
  inputBufferRef : option GPUBuffer;
  outputBufferRef : option GPUBuffer;
  meshRef : bool;
  adapterRequests : nat;
  deviceRequests : nat;
  shaderRequests : nat;
  pending : list (GPUBuffer * N);
  created : nat;
  log : list action
}.

Definition set_props (m : bool) (n : N) (e : bool) (c : component) : component :=
  {| navigator_gpu := navigator_gpu c;
     mounted := m;
     atoms_length := n;
     enabled := e;
     gpuContext := gpuContext c;
     pipelineRef := pipelineRef c;
     bindGroupRef := bindGroupRef c;
     inputBufferRef := inputBufferRef c;
     outputBufferRef := outputBufferRef c;
     meshRef := meshRef c;
     adapterRequests := adapterRequests c;
     deviceRequests := deviceRequests c;
     shaderRequests := shaderRequests c;
     pending := pending c;
     created := created c;
     log := log c |}.

Definition setGpuContext (c : component) : component :=
  {| navigator_gpu := navigator_gpu c;
     mounted := mounted c;
     atoms_length := atoms_length c;
     enabled := enabled c;
     gpuContext := true;
     pipelineRef := pipelineRef c;
     bindGroupRef := bindGroupRef c;
     inputBufferRef := inputBufferRef c;
     outputBufferRef := outputBufferRef c;
     meshRef := meshRef c;
     adapterRequests := adapterRequests c;
     deviceRequests := deviceRequests c;
     shaderRequests := shaderRequests c;
     pending := pending c;
     created := created c;
     log := log c |}.

Definition set_buffers (input output : GPUBuffer) (c : component) : component :=
  {| navigator_gpu := navigator_gpu c;
     mounted := mounted c;
     atoms_length := atoms_length c;
     enabled := enabled c;
     gpuContext := gpuContext c;
     pipelineRef := pipelineRef c;
     bindGroupRef := bindGroupRef c;
     inputBufferRef := Some input;
     outputBufferRef := Some output;
     meshRef := meshRef c;
     adapterRequests := adapterRequests c;
     deviceRequests := deviceRequests c;
     shaderRequests := shaderRequests c;
     pending := pending c;
     created := S (S (created c));
     log := log c |}.

Definition set_pipeline (p : option GPUComputePipeline) (g : option GPUBindGroup)
    (c : component) : component :=
  {| navigator_gpu := navigator_gpu c;
     mounted := mounted c;
     atoms_length := atoms_length c;
     enabled := enabled c;
     gpuContext := gpuContext c;
     pipelineRef := p;
     bindGroupRef := g;
     inputBufferRef := inputBufferRef c;
     outputBufferRef := outputBufferRef c;
     meshRef := meshRef c;
     adapterRequests := adapterRequests c;
     deviceRequests := deviceRequests c;
     shaderRequests := shaderRequests c;
     pending := pending c;
     created := created c;
     log := log c |}.

Definition set_requests (a d s : nat) (c : component) : component :=
  {| navigator_gpu := navigator_gpu c;
     mounted := mounted c;
     atoms_length := atoms_length c;
     enabled := enabled c;
     gpuContext := gpuContext c;
     pipelineRef := pipelineRef c;
     bindGroupRef := bindGroupRef c;
     inputBufferRef := inputBufferRef c;
     outputBufferRef := outputBufferRef c;
     meshRef := meshRef c;
     adapterRequests := a;
     deviceRequests := d;
     shaderRequests := s;
     pending := pending c;
     created := created c;
     log := log c |}.

Definition set_pending (n : nat) (p : list (GPUBuffer * N)) (c : component) :
    component :=
  {| navigator_gpu := navigator_gpu c;
     mounted := mounted c;
     atoms_length := atoms_length c;
     enabled := enabled c;
     gpuContext := gpuContext c;
     pipelineRef := pipelineRef c;
     bindGroupRef := bindGroupRef c;
     inputBufferRef := inputBufferRef c;
     outputBufferRef := outputBufferRef c;
     meshRef := meshRef c;
     adapterRequests := adapterRequests c;
     deviceRequests := deviceRequests c;
     shaderRequests := shaderRequests c;
     pending := p;
     created := n;
     log := log c |}.

Definition emit (done : list action) (c : component) : component :=
  {| navigator_gpu := navigator_gpu c;
     mounted := mounted c;
     atoms_length := atoms_length c;
     enabled := enabled c;
     gpuContext := gpuContext c;
     pipelineRef := pipelineRef c;
     bindGroupRef := bindGroupRef c;
     inputBufferRef := inputBufferRef c;
     outputBufferRef := outputBufferRef c;
     meshRef := meshRef c;
     adapterRequests := adapterRequests c;
     deviceRequests := deviceRequests c;
     shaderRequests := shaderRequests c;
     pending := pending c;
     created := created c;
     log := log c ++ done |}.

(** *** The first effect: [init()] and the cleanup *)

(** [init()] up to [await navigator.gpu.requestAdapter()] in [initWebGPU].
    Without [navigator.gpu] it returns before any call. *)
Definition init (c : component) : component :=
  if navigator_gpu c then
    emit [requestAdapter]
      (set_requests (S (adapterRequests c)) (deviceRequests c) (shaderRequests c) c)
  else c.

(** [if (enabled) { init(); }] *)
Definition initEffect (c : component) : component :=
  if enabled c then init c else c.

(** [initWebGPU] from the adapter on, up to [await adapter.requestDevice()];
    with no adapter it returns [null] and [init()] ends. *)
Definition adapterResolved (granted : bool) (c : component) : component :=
  match adapterRequests c with
  | O => c
  | S a =>
      if granted then
        emit [requestDevice]
          (set_requests a (S (deviceRequests c)) (shaderRequests c) c)
      else set_requests a (deviceRequests c) (shaderRequests c) c
  end.

(** [?.destroy()] on a buffer ref. *)
Definition destroyed (ref : option GPUBuffer) : list action :=
  match ref with Some b => [destroy b] | None => [] end.

(** The cleanup of the first effect. *)
Definition cleanup (c : component) : component :=
  emit (destroyed (inputBufferRef c) ++ destroyed (outputBufferRef c)) c.

(** *** The second effect: the two buffers *)

(** [createStorageBuffer] fills the input buffer through its mapped range;
    the output buffer is created unmapped. [atomData.byteLength] is four
    floats of four bytes for each atom. *)
Definition createBuffers (c : component) : component :=
  if negb (gpuContext c) || (atoms_length c =? 0) then c
  else
    let size := atoms_length c * 4 * 4 in
    let input := {| bufferId := created c; byteLength := size |} in
    let output := {| bufferId := S (created c); byteLength := size |} in
    emit [createBuffer input true; getMappedRange input; unmap input;
          createBuffer output false]
      (set_buffers input output c).

(** *** The third effect: the pipeline and the bind group *)

(** The effect up to [await fetch('/shaders/atomUpdate.wgsl')] in
    [setupPipeline()]. *)
Definition startPipeline (c : component) : component :=
  match gpuContext c, inputBufferRef c, outputBufferRef c with
  | true, Some _, Some _ =>
      emit [fetch "/shaders/atomUpdate.wgsl"]
        (set_requests (adapterRequests c) (deviceRequests c)
           (S (shaderRequests c)) c)
  | _, _, _ => c
  end.

(** The rest of [setupPipeline()], once the text of the shader is there:
    [createAtomUpdatePipeline], then [createBindGroup] on the buffers the
    refs hold by then. Were a buffer ref empty, [createBindGroup] would
    raise after [getBindGroupLayout] and the [catch] would leave
    [bindGroupRef] as it was. *)
Definition shaderLoaded (c : component) : component :=
  match shaderRequests c with
  | O => c
  | S s =>
      let pipeline := {| pipelineLabel := "Atom Update Pipeline" |} in
      let c :=
        emit [createShaderModule "Atom Update Shader";
              createComputePipeline "Atom Update Pipeline"]
          (set_pipeline (Some pipeline) (bindGroupRef c)
             (set_requests (adapterRequests c) (deviceRequests c) s c)) in
      match inputBufferRef c, outputBufferRef c with
      | Some input, Some output =>
          emit [getBindGroupLayout 0;
                createBindGroup "Atom Update Bind Group" input output]
            (set_pipeline (pipelineRef c)
               (Some {| bindGroupLabel := "Atom Update Bind Group" |}) c)
      | _, _ => emit [getBindGroupLayout 0] c
      end
  end.

(** [setupPipeline()] when the fetch or the reading of its text fails: the
    [catch] reports it. *)
Definition shaderFailed (c : component) : component :=
  match shaderRequests c with
  | O => c
  | S s => set_requests (adapterRequests c) (deviceRequests c) s c
  end.

(** The two effects that depend on [gpuContext] and [atoms], in the order
    of the source. *)
Definition effects (c : component) : component :=
  startPipeline (createBuffers c).

(** The end of [init()]: [setGpuContext(context)], which renders the
    component again and runs the two effects; on a component that is no
    longer mounted the state is not set. When the device is refused the
    call ends there. *)
Definition deviceResolved (granted : bool) (c : component) : component :=
  match deviceRequests c with
  | O => c
  | S d =>
      let c := set_requests (adapterRequests c) d (shaderRequests c) c in
      if granted && mounted c then effects (setGpuContext c) else c
  end.

(** *** The frame callback *)

(** [updateMesh()] up to its [await stagingBuffer.mapAsync(...)]. *)
Definition updateMesh (c : component) : component :=
  if negb (meshRef c) then c
  else
    match outputBufferRef c with
    | None => c
    | Some output =>
        let size := atoms_length c * 4 * 4 in
        let stagingBuffer := {| bufferId := created c; byteLength := size |} in
        emit [createBuffer stagingBuffer false;
              copyBufferToBuffer output stagingBuffer size;
              mapAsync stagingBuffer]
          (set_pending (S (created c))
             (pending c ++ [(stagingBuffer, atoms_length c)]) c)
    end.

(** The callback given to [useFrame], which is called for as long as the
    component is mounted. *)
Definition useFrame (c : component) : component :=
  if mounted c then
    match gpuContext c, pipelineRef c, bindGroupRef c with
    | true, Some pipeline, Some bindGroup =>
        updateMesh
          (emit [computePass (runComputePass pipeline bindGroup (atoms_length c))]
             c)
    | _, _, _ => c
    end
  else c.

Definition awaits (id : nat) (p : GPUBuffer * N) : bool :=
  Nat.eqb (bufferId p.1) id.

Definition others (id : nat) (p : GPUBuffer * N) : bool := negb (awaits id p).

(** The rest of [updateMesh()], run when the mapping of the staging buffer
    [id] resolves. *)
Definition mapped (id : nat) (c : component) : component :=
  match List.find (awaits id) (pending c) with
  | Some (stagingBuffer, count) =>
      emit [getMappedRange stagingBuffer; setInstanceMatrices count;
            unmap stagingBuffer; destroy stagingBuffer]
        (set_pending (created c) (List.filter (others id) (pending c)) c)
  | None => c
  end.

(** [updateMesh()] when the mapping is refused: nothing follows. *)
Definition mapFailed (id : nat) (c : component) : component :=
  set_pending (created c) (List.filter (others id) (pending c)) c.

(** *** Renders *)

(** A render with a new [atoms] array, of length [n]: the two effects run
    again. *)
Definition setAtoms (n : N) (c : component) : component :=
  if mounted c then effects (set_props true n (enabled c) c) else c.

(** A render with another value of [enabled]: the cleanup of the first
    effect, then the effect. *)
Definition setEnabled (e : bool) (c : component) : component :=
  if mounted c then
    if Bool.eqb e (enabled c) then c
    else initEffect (set_props true (atoms_length c) e (cleanup c))
  else c.

Definition unmount (c : component) : component :=
  if mounted c then
    cleanup (set_props false (atoms_length c) (enabled c) c)
  else c.

(** What can happen to a mounted component, in any order. *)
Inductive event :=
| AdapterResolved (granted : bool)
| DeviceResolved (granted : bool)
| ShaderLoaded
| ShaderFailed
| Frame
| Mapped (id : nat)
| MapFailed (id : nat)
| SetAtoms (n : N)
| SetEnabled (e : bool)
| Unmount.

Definition step (c : component) (e : event) : component :=
  match e with
  | AdapterResolved granted => adapterResolved granted c
  | DeviceResolved granted => deviceResolved granted c
  | ShaderLoaded => shaderLoaded c
  | ShaderFailed => shaderFailed c
  | Frame => useFrame c
  | Mapped id => mapped id c
  | MapFailed id => mapFailed id c
  | SetAtoms n => setAtoms n c
  | SetEnabled e => setEnabled e c
  | Unmount => unmount c
  end.

Definition run (c : component) (es : list event) : component :=
  foldl step c es.

(** The component when it is mounted with [n] atoms: nothing is there yet,
    and the three effects run once. *)
Definition mount (gpu : bool) (e : bool) (n : N) : component :=
  effects
    (initEffect
       {| navigator_gpu := gpu;
          mounted := true;
          atoms_length := n;
          enabled := e;
          gpuContext := false;
          pipelineRef := None;
          bindGroupRef := None;
          inputBufferRef := None;
          outputBufferRef := None;
          meshRef := false;
          adapterRequests := 0;
          deviceRequests := 0;
          shaderRequests := 0;
          pending := [];
          created := 0;
          log := [] |}).

Definition is_pass (a : action) : bool :=
  match a with computePass _ => true | _ => false end.

(** The number of compute passes run so far, and of readbacks in flight. *)
Definition passes (c : component) : nat := length (List.filter is_pass (log c)).

End GPUAtomRenderer.

(** ** utils/pdbParser.ts *)

Module PdbParser.
Import Simulation.

Definition Math_min (a b : float) : float :=
  if is_nan a || is_nan b then nan
  else if (a <? b)%float then a
  else if (b <? a)%float then b
  else if get_sign a then a else b.

Definition Math_max (a b : float) : float :=
  if is_nan a || is_nan b then nan
  else if (a <? b)%float then b
  else if (b <? a)%float then a
  else if get_sign a then b else a.

(** The float of a length. *)
Fixpoint float_of_pos (p : positive) : float :=
  match p with
  | xH => 1
  | xO q => 2 * float_of_pos q
  | xI q => 2 * float_of_pos q + 1
  end%float.

Definition float_of_N (n : N) : float :=
  match n with
  | N0 => 0%float
  | Npos p => float_of_pos p
  end.

Definition CPK_COLORS : Js.object RGBColor :=
  [ ("C", {| r := 0.5; g := 0.5; b := 0.5 |});
    ("N", {| r := 0; g := 0; b := 1 |});
    ("O", {| r := 1; g := 0; b := 0 |});
    ("S", {| r := 1; g := 1; b := 0 |});
    ("P", {| r := 1; g := 0.5; b := 0 |});
    ("H", {| r := 1; g := 1; b := 1 |}) ]%float.

Definition gray : RGBColor := {| r := 0.5; g := 0.5; b := 0.5 |}%float.

(** [content.split('\n')] *)
Fixpoint split_go (s : string) : string * list string :=
  match s with
  | EmptyString => (EmptyString, [])
  | String c s' =>
      let rest := split_go s' in
      if Ascii.eqb c "010" then (EmptyString, rest.1 :: rest.2)
      else (String c rest.1, rest.2)
  end.

Definition split (s : string) : list string :=
  (split_go s).1 :: (split_go s).2.

(** [s.substring(a, b)] for [a <= b] *)
Definition substring (a b : nat) (s : string) : string :=
  String.substring a (b - a) s.

Fixpoint trimStart (s : string) : string :=
  match s with
  | EmptyString => EmptyString
  | String c s' => if Ascii.is_space c then trimStart s' else s
  end.

Definition trim (s : string) : string :=
  String.rev (trimStart (String.rev (trimStart s))).

Definition is_digit (c : ascii) : bool :=
  match Js.digit c with Some _ => true | None => false end.

(** [s.replace(/\d/, '')]: the first digit is removed. *)
Fixpoint dropFirstDigit (s : string) : string :=
  match s with
  | EmptyString => EmptyString
  | String c s' => if is_digit c then s' else String c (dropFirstDigit s')
  end.

Definition upper (c : ascii) : ascii :=
  let n := N_of_ascii c in
  if (97 <=? n) && (n <=? 122) then ascii_of_N (n - 32) else c.

Fixpoint toUpperCase (s : string) : string :=
  match s with
  | EmptyString => EmptyString
  | String c s' => String (upper c) (toUpperCase s')
  end.

(** [a || b] on strings: the empty string is falsy. *)
Definition or_else (a b : string) : string :=
  match a with
  | EmptyString => b
  | _ => a
  end.

(** The variables of the loop of [parsePDB]. *)
Record scan := {
  atoms : list Atom;
  minX : float; minY : float; minZ : float;
  maxX : float; maxY : float; maxZ : float;
  sumX : float; sumY : float; sumZ : float
}.

Section Parser.

(** [parseFloat], the reading of a decimal numeral as a binary64 float,
    stays a parameter of the parser. *)
Variable parseFloat : string → float.

(** The colour of an element. An element has at most two characters, so
    it never names an inherited property; [gray] stands there for the
    function the lookup would then return. *)
Definition cpk (element : string) : RGBColor :=
  match Js.get CPK_COLORS (toUpperCase element) with
  | Js.Own c => c
  | Js.Inherited => gray
  | Js.Undefined => default gray (Js.own CPK_COLORS "C")
  end.

(** The body of [for (const line of lines)]. *)
Definition scanLine (st : scan) (line : string) : scan :=
  if String.prefix "ATOM" line || String.prefix "HETATM" line then
    let element :=
      or_else (trim (substring 76 78 line))
              (dropFirstDigit (trim (substring 12 14 line))) in
    let x := parseFloat (substring 30 38 line) in
    let y := parseFloat (substring 38 46 line) in
    let z := parseFloat (substring 46 54 line) in
    let atomName := trim (substring 12 16 line) in
    let residue := trim (substring 17 20 line) in
    let chain := trim (substring 21 22 line) in
    let color := cpk element in
    let atom :=
      {| x := x; y := y; z := z;
         element := element;
         name := atomName;
         residue := residue;
         chain := chain;
         residue_index := None;
         color := color |} in
    {| atoms := atoms st ++ [atom];
       minX := Math_min (minX st) x;
       minY := Math_min (minY st) y;
       minZ := Math_min (minZ st) z;
       maxX := Math_max (maxX st) x;
       maxY := Math_max (maxY st) y;
       maxZ := Math_max (maxZ st) z;
       sumX := (sumX st + x)%float;
       sumY := (sumY st + y)%float;
       sumZ := (sumZ st + z)%float |}
  else st.

Definition scanLines (lines : list string) : scan :=
  foldl scanLine
    {| atoms := [];
       minX := infinity; minY := infinity; minZ := infinity;
       maxX := neg_infinity; maxY := neg_infinity; maxZ := neg_infinity;
       sumX := 0; sumY := 0; sumZ := 0 |} lines.

Definition parsePDB (content fileName : string) : TrajectoryData :=
  let st := scanLines (split content) in
  let numAtoms := N.of_nat (length (atoms st)) in
  let center :=
    if 0 <? numAtoms then
      {| cx := (sumX st / float_of_N numAtoms)%float;
         cy := (sumY st / float_of_N numAtoms)%float;
         cz := (sumZ st / float_of_N numAtoms)%float |}
    else {| cx := 0; cy := 0; cz := 0 |} in
  {| metadata :=
       {| source := fileName;
          title := None;
          num_frames := 1;
          num_atoms := numAtoms;
          bounds :=
            {| min := {| cx := minX st; cy := minY st; cz := minZ st |};
               max := {| cx := maxX st; cy := maxY st; cz := maxZ st |};
               center := center |} |};
     frames := [atoms st] |}.

End Parser.

End PdbParser.

(** ** pages/MolecularDynamicsPlayground.tsx, with the state of its
    children [MolecularView] and [FileUploader] *)

Module Playground.
Import Simulation.

(** The state of the page. [currentFrame] is [None] when it is [NaN].
    [selectedChain] is the state of the one [MolecularView] the page
    renders, which stays mounted for as long as the page does. *)
Record state := {
  trajectory : TrajectoryData;
  currentFrame : option N;
  isPlaying : bool;
  isLoading : bool;
  selectedChain : option string
}.

(** [trajectory.frames?.length || 0] *)
Definition totalFrames (st : state) : N := N.of_nat (length (frames (trajectory st))).

(** [a % b] on counts: [NaN] when [b] is 0. *)
Definition remainder (a b : N) : option N :=
  if b =? 0 then None else Some (a mod b).

(** [setTrajectory(data)], followed by the effect that depends on
    [trajectory]: [setCurrentFrame(0); setIsPlaying(true)]. *)
Definition setTrajectory (data : TrajectoryData) (st : state) : state :=
  {| trajectory := data;
     currentFrame := Some 0;
     isPlaying := true;
     isLoading := isLoading st;
     selectedChain := selectedChain st |}.

(** The page once it is mounted on the default trajectory: the effect has
    run once. *)
Definition mount (defaultTrajectory : TrajectoryData) : state :=
  {| trajectory := defaultTrajectory;
     currentFrame := Some 0;
     isPlaying := true;
     isLoading := false;
     selectedChain := None |}.

(** One firing of the interval, which exists while [isPlaying] holds:
    [setCurrentFrame((prev) => (prev + 1) % totalFrames)]. *)
Definition tick (st : state) : state :=
  if isPlaying st then
    {| trajectory := trajectory st;
       currentFrame :=
         match currentFrame st with
         | Some prev => remainder (prev + 1) (totalFrames st)
         | None => None
         end;
       isPlaying := isPlaying st;
       isLoading := isLoading st;
       selectedChain := selectedChain st |}
  else st.

Definition setIsPlaying (playing : bool) (st : state) : state :=
  {| trajectory := trajectory st;
     currentFrame := currentFrame st;
     isPlaying := playing;
     isLoading := isLoading st;
     selectedChain := selectedChain st |}.

Definition setCurrentFrame (n : N) (st : state) : state :=
  {| trajectory := trajectory st;
     currentFrame := Some n;
     isPlaying := isPlaying st;
     isLoading := isLoading st;
     selectedChain := selectedChain st |}.

Definition setIsLoading (loading : bool) (st : state) : state :=
  {| trajectory := trajectory st;
     currentFrame := currentFrame st;
     isPlaying := isPlaying st;
     isLoading := loading;
     selectedChain := selectedChain st |}.

(** [handleChainSelect] and [handleChainDeselect] of [MolecularView]. *)
Definition setSelectedChain (c : option string) (st : state) : state :=
  {| trajectory := trajectory st;
     currentFrame := currentFrame st;
     isPlaying := isPlaying st;
     isLoading := isLoading st;
     selectedChain := c |}.

Definition handleChainSelect (chainId : string) : state → state :=
  setSelectedChain (Some chainId).

Definition handleChainDeselect : state → state :=
  setSelectedChain None.

(** How the [FileReader] ends for a dropped file. *)
Inductive reading :=
| Aborted
| Failed
| Loaded (text : string).

Section Upload.
Variable parseFloat : string → float.

(** [onDrop] for one accepted file, with [onDataLoaded = setTrajectory]:
    the parser does not raise on a string, so the [catch] branch is not
    taken. *)
Definition onDrop (fileName : string) (r : reading) (st : state) : state :=
  let st := setIsLoading true st in
  match r with
  | Aborted | Failed => setIsLoading false st
  | Loaded textStr =>
      let data := PdbParser.parsePDB parseFloat textStr fileName in
      setIsLoading false (setTrajectory data st)
  end.

End Upload.

End Playground.

(** ** The grid of invocations a dispatch starts

    [dispatchWorkgroups(k)] on a kernel of [@workgroup_size(64)] starts one
    invocation for each [global_invocation_id.x] below [64 * k]. The order in
    which they run is not fixed; a schedule is any arrangement of them. *)

Module Grid.
Import AtomUpdate.

Definition invocations (numWorkgroups : Z) : list N :=
  N.of_nat <$> seq 0 (Z.to_nat (numWorkgroups * ComputePipeline.workgroupSize)).

(** The invocations of a schedule, one after the other: the buffers at the
    end and the accesses made. *)
Definition runSchedule (ids : list N) (b : buffers) : buffers * list access :=
  foldl (λ acc idx, ((main idx acc.1).1, acc.2 ++ (main idx acc.1).2)) (b, []) ids.

Definition index_of (a : access) : N :=
  match a with
  | Load_atomsIn i | Store_atomsOut i => i
  end.

End Grid.

(** ** utils/generate.color.ts: the hash of a chain id *)

Module GenerateColor.

(** The 32-bit signed integer a number is turned into by a bitwise
    operator. *)
Definition ToInt32 (z : Z) : Z :=
  let m := (z mod 2 ^ 32)%Z in
  if (m <? 2 ^ 31)%Z then m else (m - 2 ^ 32)%Z.

(** [a << n] and [a & b] *)
Definition shl (a : Z) (n : Z) : Z := ToInt32 (Z.shiftl (ToInt32 a) n).
Definition and (a b : Z) : Z := Z.land (ToInt32 a) (ToInt32 b).

(** [str.charCodeAt(i)] for each [i]. *)
Fixpoint charCodes (str : string) : list Z :=
  match str with
  | EmptyString => []
  | String c str' => Z.of_N (N_of_ascii c) :: charCodes str'
  end.

(** The body of the loop: the subtraction and the addition are exact on
    numbers of this size. *)
Definition mix (hash char : Z) : Z :=
  let hash := (shl hash 5 - hash + char)%Z in
  and hash hash.

Definition hashString (str : string) : Z :=
  Z.abs (foldl mix 0%Z (charCodes str)).

End GenerateColor.

(** ** utils/colors.ts *)

Module Colors.
Import Simulation.

(** The numbers [rgbToHex] works on once a channel is rounded: [NaN], an
    infinity or an integer. *)
Inductive numeric :=
| not_a_number
| minus_infinity
| plus_infinity
| integer (z : Z).

(** [Math.round(x)]: the integer nearest to [x], the upper one of two that
    are equally near. A finite float is [m * 2^e] for integers [m] and [e],
    which makes the rounding exact. *)
Definition Math_round (x : float) : numeric :=
  match FloatOps.Prim2SF x with
  | SpecFloat.S754_nan => not_a_number
  | SpecFloat.S754_infinity s => if s then minus_infinity else plus_infinity
  | SpecFloat.S754_zero _ => integer 0
  | SpecFloat.S754_finite s m e =>
      let n := if s then Z.neg m else Z.pos m in
      if (0 <=? e)%Z then integer (n * 2 ^ e)
      else integer ((2 * n + 2 ^ (- e)) / 2 ^ (- e + 1))
  end.

Definition Math_min (a b : numeric) : numeric :=
  match a, b with
  | not_a_number, _ | _, not_a_number => not_a_number
  | minus_infinity, _ | _, minus_infinity => minus_infinity
  | plus_infinity, c | c, plus_infinity => c
  | integer m, integer n => integer (Z.min m n)
  end.

Definition Math_max (a b : numeric) : numeric :=
  match a, b with
  | not_a_number, _ | _, not_a_number => not_a_number
  | plus_infinity, _ | _, plus_infinity => plus_infinity
  | minus_infinity, c | c, minus_infinity => c
  | integer m, integer n => integer (Z.max m n)
  end.

Definition hex_digit (d : N) : ascii :=
  match d with
  | 0 => "0" | 1 => "1" | 2 => "2" | 3 => "3" | 4 => "4" | 5 => "5"
  | 6 => "6" | 7 => "7" | 8 => "8" | 9 => "9" | 10 => "a" | 11 => "b"
  | 12 => "c" | 13 => "d" | 14 => "e" | _ => "f"
  end%char.

(** The digits of [n] to the base 16, the last one first into [acc]. *)
Fixpoint hex_go (fuel : nat) (n : N) (acc : string) : string :=
  match fuel with
  | O => acc
  | S fuel' =>
      let acc' := String (hex_digit (n mod 16)) acc in
      if n / 16 =? 0 then acc' else hex_go fuel' (n / 16) acc'
  end.

(** [n.toString(16)] *)
Definition toString16 (n : numeric) : string :=
  match n with
  | not_a_number => "NaN"
  | plus_infinity => "Infinity"
  | minus_infinity => "-Infinity"
  | integer z =>
      let digits := hex_go (S (N.to_nat (N.log2 (Z.abs_N z)))) (Z.abs_N z) "" in
      if (z <? 0)%Z then String "-" digits else digits
  end.

Definition toHex (n : numeric) : string :=
  let hex := toString16 (Math_max (integer 0) (Math_min (integer 255) n)) in
  if Nat.eqb (String.length hex) 1 then String "0" hex else hex.

(** [rgbToHex(color)], [None] standing for a missing colour. *)
Definition rgbToHex (color : option RGBColor) : string :=
  match color with
  | None => "#ffffff"
  | Some color =>
      let r := Math_round (r color * 255)%float in
      let g := Math_round (g color * 255)%float in
      let b := Math_round (b color * 255)%float in
      String "#" (toHex r +:+ toHex g +:+ toHex b)
  end.

End Colors.

(** ** components/BackboneView.tsx: the backbone of each chain *)

Module BackboneView.
Import Js Simulation MolecularView.

(** The body of [atoms.forEach(atom => ...)]: the alpha carbons are
    grouped as in [MolecularView], the other atoms are passed over. *)
Definition group_backbone (groups : gmap string (list Atom)) (atom : Atom)
  : outcome (gmap string (list Atom)) :=
  if String.eqb (name atom) "CA" then group_atom groups atom
  else Returns groups.

(** [chains] *)
Definition chains (atoms : option (list Atom))
  : outcome (gmap string (list Atom)) :=
  match atoms with
  | None => Returns ∅
  | Some atoms =>
      foldl (λ acc atom,
               match acc with
               | Returns groups => group_backbone groups atom
               | TypeError => TypeError
               end) (Returns ∅) atoms
  end.

(** [selectedChain === chainId] *)
Definition isSelected (selectedChain : option string) (chainId : string) : bool :=
  match selectedChain with
  | Some c => String.eqb c chainId
  | None => false
  end.

(** [selectedChain !== null && selectedChain !== chainId] *)
Definition isDimmed (selectedChain : option string) (chainId : string) : bool :=
  match selectedChain with
  | Some c => negb (String.eqb c chainId)
  | None => false
  end.

End BackboneView.

(** ** components/MolecularView.tsx: what the info panel is given *)

Module InfoPanel.
Import Js Simulation ChainMetadata MolecularView.

(** [chainMetadataMap[k]] *)
Definition entry (metadataMap : gmap string ChainInfo) (k : string)
  : property ChainInfo :=
  match metadataMap !! k with
  | Some info => Own info
  | None => if inherited k then Inherited else Undefined
  end.

(** What [onSelectInfo] is: [null], or what the read of the map finds. *)
Inductive selection :=
| null
| found (p : property ChainInfo).

(** [selectedChain ? chainMetadataMap[selectedChain] : null]: the empty
    string is falsy like [null]. *)
Definition onSelectInfo (selectedChain : option string)
    (metadataMap : gmap string ChainInfo) : selection :=
  match selectedChain with
  | None => null
  | Some EmptyString => null
  | Some c => found (entry metadataMap c)
  end.

(** [Object.keys(chainMetadataMap).length] *)
Definition totalChains (metadataMap : gmap string ChainInfo) : N :=
  N.of_nat (size metadataMap).

(** [ChainInfoPanel]: nothing is shown for [null] and [undefined], the
    entry is shown when there is one; on an inherited function the read of
    [chainInfo.atomCount.toLocaleString] raises. *)
Definition ChainInfoPanel (chainInfo : selection) (totalChains : N)
  : outcome (option (ChainInfo * N)) :=
  match chainInfo with
  | null | found Undefined => Returns None
  | found (Own info) => Returns (Some (info, totalChains))
  | found Inherited => TypeError
  end.

End InfoPanel.

(** * Notions the properties are stated with *)

Module Notions.
Import Js Simulation ChainMetadata MolecularView.

(** The residue indices that are present in a group, in order. *)
Definition present (atoms : list Atom) : list Z := omap residue_index atoms.

(** The particles of a frame whose chain is [c]. *)
Definition ofChain (c : string) (atoms : list Atom) : list Atom :=
  filter (λ a, chain a = c) atoms.

(** The sum of [atomCount] over the entries of a metadata map. *)
Definition totalAtomCount (m : gmap string ChainInfo) : N :=
  map_fold (λ _ info total, atomCount info + total) 0 m.

(** The sum of the sizes of the chain groups. *)
Definition groupSizes (g : gmap string (list Atom)) : N :=
  map_fold (λ _ l total, N.of_nat (length l) + total) 0 g.

(** The residue names of a group, in order, and the number of
    particles of the group that bear a given name. *)
Definition names (atoms : list Atom) : list string := residue <$> atoms.

Definition occurrences (k : string) (atoms : list Atom) : nat :=
  length (filter (λ a, residue a = k) atoms).

(** The position at which [k] first appears in [l] (the length of [l] when
    it does not appear). *)
Fixpoint first_index (k : string) (l : list string) : nat :=
  match l with
  | [] => 0
  | k' :: l' => if decide (k' = k) then 0 else S (first_index k l')
  end.

(** [k1] first appears before [k2]. *)
Definition first_before (l : list string) (k1 k2 : string) : Prop :=
  (first_index k1 l < first_index k2 l)%nat.

(** The order in which the keys of an object are enumerated, when its
    other keys were created in the order [before]: array indices first, by
    value, then the other keys. *)
Definition enumeration (before : relation string) (k1 k2 : string) : Prop :=
  match array_index k1, array_index k2 with
  | Some i, Some j => i < j
  | Some _, None => True
  | None, Some _ => False
  | None, None => before k1 k2
  end.

(** [k1] is ranked above [k2]: it is more frequent, or as frequent and
    ahead of it in the order [before] that breaks ties. *)
Definition outranks (before : relation string) (atoms : list Atom)
    (k1 k2 : string) : Prop :=
  (occurrences k2 atoms < occurrences k1 atoms)%nat
  ∨ (occurrences k1 atoms = occurrences k2 atoms ∧ before k1 k2).

(** [top] is the list of the (at most five) most frequent residue names of
    the group, by descending frequency, ties broken by [before]: it is
    ranked, it holds names of the group only, and a name of the group that
    it leaves out is outranked by each of the five names it holds. *)
Definition ranked_by (before : relation string) (atoms : list Atom)
    (top : list string) : Prop :=
  StronglySorted (outranks before atoms) top
  ∧ (length top ≤ 5)%nat
  ∧ (∀ k, k ∈ top → k ∈ names atoms)
  ∧ (∀ k, k ∈ names atoms → k ∉ top →
       length top = 5%nat ∧ ∀ k', k' ∈ top → outranks before atoms k' k).

(** "Ties between equally frequent names are broken by the order in which
    the names first appear in the group." *)
Definition ties_broken_by_first_appearance : Prop :=
  ∀ (atoms : list Atom) (chainId : string),
    ranked_by (first_before (names atoms)) atoms
      (commonResidues (calculateChainInfo atoms chainId)).

(** [n] firings of the interval of the playback page. *)
Definition ticks (n : nat) (st : Playground.state) : Playground.state :=
  Nat.iter n Playground.tick st.

(** Every frame of the document holds [metadata.num_atoms] particles. *)
Definition well_formed (data : TrajectoryData) : Prop :=
  Forall (λ frame, N.of_nat (length frame) = num_atoms (metadata data))
         (frames data).

(** The order a stable sort by the weight [w] brings about on a list that
    was in the order [before]. *)
Definition stable_order {A} (w : A → Z) (before : relation A) (x y : A) : Prop :=
  (w x < w y)%Z ∨ (w x = w y ∧ before x y).

(** The weight by which [by_frequency] sorts the entries. *)
Definition weight (e : string * counter) : Z :=
  match e.2 with
  | Num n => - n
  | Text => 0
  end.

(** The entries whose key is an array index. *)
Definition is_index {V} (kv : string * V) : bool :=
  match array_index kv.1 with Some _ => true | None => false end.

(** Three more sentences of the specification that the sources do not
    bear out, as they read on the definitions above; each is refuted
    below, as is the one on ties. *)


(** "A document in which some frame's particle count differs from
    metadata.num_atoms is rejected at load time, and the trajectory on
    display is not replaced." *)
Definition malformed_document_rejected : Prop :=
  ∀ (data : TrajectoryData) (st : Playground.state),
    ¬ well_formed data →
    Playground.trajectory (Playground.setTrajectory data st)
    = Playground.trajectory st.

(** "Immediately after a load completes, the selected chain id is null,
    whatever was selected before." *)
Definition selection_reset_on_load : Prop :=
  ∀ (parseFloat : string → float) (fileName textStr : string)
    (st : Playground.state),
    Playground.selectedChain
      (Playground.onDrop parseFloat fileName (Playground.Loaded textStr) st)
    = None.

(** Sample data. *)
Definition carbon (res ch : string) (i : option Z) : Atom :=
  {| x := 0; y := 0; z := 0;
     element := "C"; name := "CA";
     residue := res; chain := ch; residue_index := i;
     color := {| r := 0.5; g := 0.5; b := 0.5 |} |}%float.

Definition origin : Coordinates := {| cx := 0; cy := 0; cz := 0 |}%float.

Definition document (n : N) (fs : list (list Atom)) : TrajectoryData :=
  {| metadata :=
       {| source := "sample.json";
          title := Some "sample";
          num_frames := N.of_nat (length fs);
          num_atoms := n;
          bounds := {| min := origin; max := origin; center := origin |} |};
     frames := fs |}.

(** A group of two residues, each met once: ALA, then the ligand 144. *)
Definition ala_then_144 : list Atom :=
  [carbon "ALA" "A" (Some 1%Z); carbon "144" "A" (Some 2%Z)].

(** Five frames of one particle each. *)
Definition five_frames : TrajectoryData :=
  document 1 (replicate 5 [carbon "ALA" "A" None]).

(** A document that announces two particles and holds a frame of one. *)
Definition short_frame : TrajectoryData :=
  document 2 [[carbon "ALA" "A" None]].

(** The page on five frames, playing at the last one. *)
Definition at_last_frame : Playground.state :=
  Playground.setCurrentFrame 4 (Playground.mount five_frames).

(** A pair of buffers of one element each. *)
Definition one_atom : AtomUpdate.buffers :=
  {| AtomUpdate.atomsIn :=
       [ {| AtomUpdate.vx := 1; AtomUpdate.vy := 2;
            AtomUpdate.vz := 3; AtomUpdate.vw := 1 |} ];
     AtomUpdate.atomsOut :=
       [ {| AtomUpdate.vx := 0; AtomUpdate.vy := 0;
            AtomUpdate.vz := 0; AtomUpdate.vw := 0 |} ] |}%float.

End Notions.

(** * Further notions *)

Module MoreNotions.
Import Js Simulation ChainMetadata MolecularView.

(** The polynomial in 31 of the character codes of a string. *)
Definition polynomial31 (codes : list Z) : Z :=
  foldl (λ h c, 31 * h + c)%Z 0%Z codes.

(** The alpha carbons of a frame, in order. *)
Definition alphaCarbons (atoms : list Atom) : list Atom :=
  filter (λ a, name a = "CA"%string) atoms.

(** A frame of three particles: two of chain A, one without a chain id. *)
Definition three_particles : list Atom :=
  [ Notions.carbon "ALA" "A" None; Notions.carbon "GLY" "" None;
    Notions.carbon "VAL" "A" None ].

(** The lines of a PDB file that open with ATOM or HETATM. *)
Definition is_record (line : string) : bool :=
  String.prefix "ATOM" line || String.prefix "HETATM" line.

Definition records (content : string) : list string :=
  List.filter is_record (PdbParser.split content).

(** The rendered frames among some events. *)
Definition is_frame (e : GPUAtomRenderer.event) : bool :=
  match e with GPUAtomRenderer.Frame => true | _ => false end.

Definition rendered (es : list GPUAtomRenderer.event) : nat :=
  length (List.filter is_frame es).

(** The calls by which the adapter and the device are acquired. *)
Definition acquires (a : GPUAtomRenderer.action) : Prop :=
  a = GPUAtomRenderer.requestAdapter ∨ a = GPUAtomRenderer.requestDevice.

(** The events that leave the renderer with an empty atom list. *)
Definition keeps_empty (e : GPUAtomRenderer.event) : bool :=
  match e with GPUAtomRenderer.SetAtoms n => n =? 0 | _ => true end.

(** A log in which an input buffer, an output buffer, the pipeline and a
    bind group on the two buffers have been created. *)
Definition set_up (done : list GPUAtomRenderer.action) : Prop :=
  ∃ input output,
    GPUAtomRenderer.createBuffer input true ∈ done
    ∧ GPUAtomRenderer.createBuffer output false ∈ done
    ∧ GPUAtomRenderer.createComputePipeline "Atom Update Pipeline" ∈ done
    ∧ GPUAtomRenderer.createBindGroup "Atom Update Bind Group" input output
      ∈ done.

(** The refs and the log agree: a buffer a ref holds was created, a bind
    group is there only once everything was created, and a pass has run
    only if a bind group is there. *)
Definition ready (c : GPUAtomRenderer.component) : Prop :=
  (∀ b, GPUAtomRenderer.inputBufferRef c = Some b →
        GPUAtomRenderer.createBuffer b true ∈ GPUAtomRenderer.log c)
  ∧ (∀ b, GPUAtomRenderer.outputBufferRef c = Some b →
          GPUAtomRenderer.createBuffer b false ∈ GPUAtomRenderer.log c)
  ∧ (GPUAtomRenderer.bindGroupRef c ≠ None → set_up (GPUAtomRenderer.log c))
  ∧ (GPUAtomRenderer.passes c ≠ 0%nat → GPUAtomRenderer.bindGroupRef c ≠ None).

(** The renderer on no atoms: no buffer, no pipeline, no call of
    [setupPipeline()] or readback under way, and nothing done but to
    acquire the adapter and the device. *)
Definition idle (c : GPUAtomRenderer.component) : Prop :=
  GPUAtomRenderer.atoms_length c = 0
  ∧ GPUAtomRenderer.inputBufferRef c = None
  ∧ GPUAtomRenderer.outputBufferRef c = None
  ∧ GPUAtomRenderer.pipelineRef c = None
  ∧ GPUAtomRenderer.bindGroupRef c = None
  ∧ GPUAtomRenderer.shaderRequests c = 0%nat
  ∧ GPUAtomRenderer.pending c = []
  ∧ Forall acquires (GPUAtomRenderer.log c).

(** The loop of [parsePDB] over some lines, from any state. *)
Definition scanFrom (parseFloat : string → float) (st : PdbParser.scan)
    (lines : list string) : PdbParser.scan :=
  foldl (PdbParser.scanLine parseFloat) st lines.

(** The widths of the fields [parsePDB] cuts out of a record, with no
    residue index. *)
Definition from_columns (a : Atom) : Prop :=
  (String.length (element a) ≤ 2)%nat
  ∧ (String.length (name a) ≤ 4)%nat
  ∧ (String.length (residue a) ≤ 3)%nat
  ∧ (String.length (chain a) ≤ 1)%nat
  ∧ residue_index a = None.

(** The value of a digit to the base 16, and of a string of such digits. *)
Definition hex_value_of (c : ascii) : option Z :=
  let n := Z.of_N (N_of_ascii c) in
  if (48 <=? n)%Z && (n <=? 57)%Z then Some (n - 48)%Z
  else if (97 <=? n)%Z && (n <=? 102)%Z then Some (n - 87)%Z
  else None.

Fixpoint hex_value (acc : Z) (s : string) : option Z :=
  match s with
  | EmptyString => Some acc
  | String c s' =>
      match hex_value_of c with
      | Some d => hex_value (16 * acc + d) s'
      | None => None
      end
  end.

(** A colour channel as a whole number from 0 to 255. *)
Definition clamp255 (z : Z) : Z := Z.max 0 (Z.min 255 z).

Definition channel (n : Colors.numeric) : Z :=
  match n with
  | Colors.integer z => clamp255 z
  | Colors.plus_infinity => 255
  | Colors.minus_infinity | Colors.not_a_number => 0
  end.

(** The two digits of a channel value read back as that value. *)
Definition two_digits (k : nat) : bool :=
  let hex := Colors.toHex (Colors.integer (Z.of_nat k)) in
  Nat.eqb (String.length hex) 2
  && bool_decide (hex_value 0 hex = Some (Z.of_nat k)).

End MoreNotions.

(** * Theorems *)

Module ComputePipelineFacts.
Import ComputePipeline.

Lemma numWorkgroups_div (n : N) :
  numWorkgroups n = ((Z.of_N n + 63) / 64)%Z.
Proof.
  unfold numWorkgroups, workgroupSize, Qceiling, Qfloor.
  set (z := Z.of_N n).
  assert (Hq : (- (inject_Z z / inject_Z 64))%Q = ((- z) # 64)%Q).
  { unfold Qdiv, Qinv, Qmult, Qopp, inject_Z. simpl.
    f_equal. lia. }
  rewrite Hq. simpl.
  assert (H0 : (0 <= z)%Z) by (subst z; lia).
  pose proof (Z.div_mod (- z) 64 ltac:(lia)) as Hm.
  pose proof (Z.mod_pos_bound (- z) 64 ltac:(lia)) as Hb.
  pose proof (Z.div_mod (z + 63) 64 ltac:(lia)) as Hm'.
  pose proof (Z.mod_pos_bound (z + 63) 64 ltac:(lia)) as Hb'.
  lia.
Qed.

(** C1. For every particle count [n], [runComputePass] issues exactly one
    dispatch, and its thread-group count is ceil(n / 64): the least [k]
    with [n <= 64 * k]. For the particle counts 1, 63, 64, 65 and 10000
    the counts are 1, 1, 1, 2 and 157. *)
Theorem runComputePass_dispatch_count (p : GPUComputePipeline)
    (g : GPUBindGroup) (n : N) :
  dispatches (runComputePass p g n) = [dispatchWorkgroups (numWorkgroups n)]
  ∧ (Z.of_N n ≤ 64 * numWorkgroups n)%Z
  ∧ (∀ k : Z, (Z.of_N n ≤ 64 * k)%Z → (numWorkgroups n ≤ k)%Z)
  ∧ numWorkgroups <$> [1; 63; 64; 65; 10000] = [1; 1; 1; 2; 157]%Z.
Proof.
  split; [reflexivity|].
  rewrite numWorkgroups_div.
  pose proof (Z.div_mod (Z.of_N n + 63) 64 ltac:(lia)) as Hm.
  pose proof (Z.mod_pos_bound (Z.of_N n + 63) 64 ltac:(lia)) as Hb.
  split; [lia|]. split; [intros k Hk; lia|].
  vm_compute. reflexivity.
Qed.

End ComputePipelineFacts.

Module AtomUpdateFacts.
Import AtomUpdate.

(** C9. An invocation whose global index is at least the length of the
    input array returns at once: it makes no access to any buffer element
    and leaves both buffers as they were. *)
Theorem main_out_of_range_noop (idx : N) (b : buffers) :
  arrayLength (atomsIn b) ≤ idx →
  main idx b = (b, []).
Proof.
  intros H. unfold main.
  destruct (N.leb_spec (arrayLength (atomsIn b)) idx) as [_|Hlt]; [reflexivity|lia].
Qed.

Lemma main_out_of_range_noop_witness :
  arrayLength (atomsIn Notions.one_atom) ≤ 1
  ∧ main 1 Notions.one_atom = (Notions.one_atom, []).
Proof.
  split; [vm_compute; discriminate|].
  apply main_out_of_range_noop. vm_compute. discriminate.
Defined.

End AtomUpdateFacts.

Module JsFacts.
Import Js Notions.

(** *** Lists *)

Lemma StronglySorted_fmap_elem {A B} (f : A → B) (R1 : relation A)
    (R2 : relation B) (l : list A) :
  (∀ x y, x ∈ l → y ∈ l → R1 x y → R2 (f x) (f y)) →
  StronglySorted R1 l → StronglySorted R2 (f <$> l).
Proof.
  induction l as [|a l IH]; intros HR Hs; [constructor|].
  apply StronglySorted_cons in Hs as [Ha Hs]. rewrite fmap_cons.
  apply StronglySorted_cons. split.
  - apply Forall_fmap, Forall_forall. intros y Hy. simpl.
    rewrite Forall_forall in Ha. apply HR; [left|by right|auto].
  - apply IH; [|exact Hs]. intros x y Hx Hy. apply HR; by right.
Qed.

Lemma StronglySorted_impl_elem {A} (R1 R2 : relation A) (l : list A) :
  (∀ x y, x ∈ l → y ∈ l → R1 x y → R2 x y) →
  StronglySorted R1 l → StronglySorted R2 l.
Proof.
  intros HR Hs. rewrite <- (list_fmap_id l).
  eapply StronglySorted_fmap_elem; [|exact Hs]. exact HR.
Qed.

Lemma StronglySorted_of_fmap {A B} (f : A → B) (R : relation B) (l : list A) :
  StronglySorted R (f <$> l) → StronglySorted (λ x y, R (f x) (f y)) l.
Proof.
  induction l as [|a l IH]; intros Hs; [constructor|].
  rewrite fmap_cons in Hs. apply StronglySorted_cons in Hs as [Ha Hs].
  apply StronglySorted_cons. split; [|auto].
  rewrite Forall_fmap in Ha. exact Ha.
Qed.

Lemma StronglySorted_filter {A} (R : relation A) (f : A → bool) (l : list A) :
  StronglySorted R l → StronglySorted R (List.filter f l).
Proof.
  induction l as [|a l IH]; intros Hs; [constructor|].
  apply StronglySorted_cons in Hs as [Ha Hs]. simpl.
  destruct (f a); [|auto].
  apply StronglySorted_cons. split; [|auto].
  rewrite Forall_forall in *. intros y Hy. apply Ha.
  apply list_elem_of_In, List.filter_In in Hy as [Hy _]. by apply list_elem_of_In.
Qed.

Lemma StronglySorted_snoc {A} (R : relation A) (l : list A) (x : A) :
  StronglySorted R l → Forall (λ y, R y x) l → StronglySorted R (l ++ [x]).
Proof.
  intros Hs Hx. apply StronglySorted_app_2; [|exact Hs|repeat constructor].
  intros y z Hy Hz%list_elem_of_singleton. subst z.
  rewrite Forall_forall in Hx. auto.
Qed.

Lemma NoDup_StronglySorted {A} (l : list A) :
  NoDup l → StronglySorted (≠) l.
Proof.
  induction 1 as [|a l Ha _ IH]; constructor; [exact IH|].
  apply Forall_forall. intros y Hy ->. auto.
Qed.

Lemma filter_split_perm {A} (f : A → bool) (l : list A) :
  List.filter f l ++ List.filter (λ a, negb (f a)) l ≡ₚ l.
Proof.
  induction l as [|a l IH]; [reflexivity|]. simpl.
  destruct (f a); simpl.
  - by constructor.
  - rewrite <- Permutation_middle. by constructor.
Qed.

(** *** [Array.prototype.sort] *)

Section ArraySort.
Context {A : Type} (comparefn : A → A → Z) (w : A → Z) (before : relation A).

Lemma sorted_insert_perm (x : A) (l : list A) :
  sorted_insert comparefn x l ≡ₚ x :: l.
Proof.
  induction l as [|y l IH]; [reflexivity|]. simpl.
  destruct (comparefn x y <=? 0)%Z; [reflexivity|].
  rewrite IH. apply perm_swap.
Qed.

Lemma Array_sort_perm (l : list A) : Array_sort comparefn l ≡ₚ l.
Proof.
  induction l as [|x l IH]; [reflexivity|]. simpl.
  rewrite sorted_insert_perm. by constructor.
Qed.

Lemma stable_order_le (x y : A) : stable_order w before x y → (w x ≤ w y)%Z.
Proof. intros [H|[H _]]; lia. Qed.

Lemma sorted_insert_sorted (x : A) (l : list A) :
  (∀ y, y ∈ l → comparefn x y = (w x - w y)%Z) →
  Forall (before x) l →
  StronglySorted (stable_order w before) l →
  StronglySorted (stable_order w before) (sorted_insert comparefn x l).
Proof.
  induction l as [|y l IH]; intros Hc Hb Hs; simpl.
  - repeat constructor.
  - apply StronglySorted_cons in Hs as [Hy Hs].
    apply Forall_cons in Hb as [Hxy Hb].
    rewrite (Hc y) by left.
    destruct (Z.leb_spec (w x - w y) 0) as [Hle|Hgt].
    + apply StronglySorted_cons. split; [|by apply StronglySorted_cons].
      apply Forall_cons. split.
      * unfold stable_order. destruct (decide (w x = w y)); [by right|left; lia].
      * rewrite Forall_forall in *. intros z Hz.
        pose proof (stable_order_le _ _ (Hy z Hz)).
        unfold stable_order.
        destruct (decide (w x = w z)); [right; auto|left; lia].
    + apply StronglySorted_cons. split.
      * rewrite Forall_forall in *. intros z Hz.
        rewrite sorted_insert_perm in Hz.
        apply elem_of_cons in Hz as [->|Hz]; [left; lia|auto].
      * apply IH; [|exact Hb|exact Hs].
        intros z Hz. apply Hc. by right.
Qed.

(** A sort whose comparator is the difference of the weights [w] of its
    arguments, on a list in the order [before], orders the list by weight
    and leaves elements of equal weight in the order [before]. *)
Lemma Array_sort_sorted (l : list A) :
  (∀ x y, x ∈ l → y ∈ l → comparefn x y = (w x - w y)%Z) →
  StronglySorted before l →
  StronglySorted (stable_order w before) (Array_sort comparefn l).
Proof.
  induction l as [|x l IH]; intros Hc Hs; simpl; [constructor|].
  apply StronglySorted_cons in Hs as [Hx Hs].
  apply sorted_insert_sorted.
  - intros y Hy. rewrite Array_sort_perm in Hy. apply Hc; [left|by right].
  - rewrite Array_sort_perm. exact Hx.
  - apply IH; [|exact Hs]. intros y z Hy Hz. apply Hc; by right.
Qed.

End ArraySort.

(** *** Own properties *)

Section Objects.
Context {V : Type}.
Implicit Types (o : object V) (k : string) (v : V).

Lemma own_None o k : own o k = None ↔ k ∉ o.*1.
Proof.
  induction o as [|[k' v'] o IH]; simpl.
  - split; [intros _; apply not_elem_of_nil|done].
  - destruct (String.eqb_spec k' k) as [->|Hne].
    + split; [discriminate|]. intros H. exfalso. apply H. left.
    + rewrite IH, not_elem_of_cons. split; [by split|by intros [_ ?]].
Qed.

Lemma own_Some o k v : own o k = Some v → (k, v) ∈ o.
Proof.
  induction o as [|[k' v'] o IH]; simpl; [discriminate|].
  destruct (String.eqb_spec k' k) as [->|Hne].
  - intros [= ->]. left.
  - intros H. right. auto.
Qed.

Lemma elem_of_own o k v : NoDup o.*1 → (k, v) ∈ o → own o k = Some v.
Proof.
  induction o as [|[k' v'] o IH]; simpl; intros Hnd Hin.
  - by apply elem_of_nil in Hin.
  - apply NoDup_cons in Hnd as [Hk' Hnd].
    apply elem_of_cons in Hin as [[= -> ->]|Hin].
    + by rewrite String.eqb_refl.
    + destruct (String.eqb_spec k' k) as [->|Hne]; [|auto].
      exfalso. apply Hk'. apply list_elem_of_fmap. by exists (k, v).
Qed.

Lemma own_put o k v k' :
  own (put o k v) k' = if decide (k = k') then Some v else own o k'.
Proof.
  induction o as [|[k0 v0] o IH]; simpl.
  - destruct (String.eqb_spec k k'), (decide (k = k')); congruence.
  - destruct (String.eqb_spec k0 k) as [->|Hne]; simpl.
    + destruct (String.eqb_spec k k'), (decide (k = k')); congruence.
    + rewrite IH.
      destruct (String.eqb_spec k0 k'), (decide (k = k')); congruence.
Qed.

Lemma put_keys o k v :
  (put o k v).*1 = if decide (k ∈ o.*1) then o.*1 else o.*1 ++ [k].
Proof.
  induction o as [|[k0 v0] o IH]; [reflexivity|].
  cbn [put]. destruct (String.eqb_spec k0 k) as [->|Hne]; rewrite !fmap_cons; cbn [fst].
  - rewrite decide_True by left. reflexivity.
  - rewrite IH. destruct (decide (k ∈ o.*1)).
    + rewrite decide_True by (by right). reflexivity.
    + rewrite decide_False; [reflexivity|].
      rewrite not_elem_of_cons. split; congruence.
Qed.

Lemma assign_put o k v : inherited k = false → assign o k v = put o k v.
Proof.
  intros H. unfold assign.
  destruct (String.eqb_spec k "__proto__") as [->|_]; [|reflexivity].
  vm_compute in H. discriminate.
Qed.

Lemma get_own o k :
  inherited k = false →
  get o k = match own o k with Some v => Own v | None => Undefined end.
Proof. intros H. unfold get. rewrite H. reflexivity. Qed.

(** *** [Object.entries] *)

Lemma array_index_pretty k i : array_index k = Some i → pretty i = k.
Proof.
  unfold array_index. destruct k as [|c k]; [discriminate|].
  destruct (digits 0 (String c k)) as [n|]; [|discriminate].
  destruct (bool_decide (pretty n = String c k)) eqn:E; simpl; [|discriminate].
  destruct (n <? 2 ^ 32 - 1); [|discriminate].
  intros [= <-]. by apply bool_decide_eq_true in E.
Qed.

Lemma array_index_inj k1 k2 i :
  array_index k1 = Some i → array_index k2 = Some i → k1 = k2.
Proof. intros H1%array_index_pretty H2%array_index_pretty. congruence. Qed.

Lemma elem_of_indexed o i kv :
  (i, kv) ∈ indexed o ↔ kv ∈ o ∧ array_index kv.1 = Some i.
Proof.
  unfold indexed. rewrite list_elem_of_omap. split.
  - intros (kv' & Hin & H). destruct (array_index kv'.1) eqn:E; [|discriminate].
    by injection H as -> ->.
  - intros [Hin E]. exists kv. by rewrite E.
Qed.

Lemma indexed_cons kv o :
  indexed (kv :: o) =
    match array_index kv.1 with
    | Some i => (i, kv) :: indexed o
    | None => indexed o
    end.
Proof. unfold indexed. cbn. destruct (array_index kv.1); reflexivity. Qed.

Lemma indexed_values o : (indexed o).*2 = List.filter is_index o.
Proof.
  induction o as [|kv o IH]; [reflexivity|].
  rewrite indexed_cons. cbn [List.filter]. unfold is_index at 1.
  destruct (array_index kv.1); [rewrite fmap_cons|]; by rewrite IH.
Qed.

Lemma indexed_NoDup o : NoDup o.*1 → NoDup (indexed o).*1.
Proof.
  induction o as [|kv o IH]; intros Hnd; [constructor|].
  rewrite fmap_cons in Hnd. apply NoDup_cons in Hnd as [Hk Hnd].
  rewrite indexed_cons.
  destruct (array_index kv.1) as [i|] eqn:E; [|auto].
  rewrite fmap_cons. apply NoDup_cons. split; [|auto].
  intros ([j kv'] & Hj & Hin)%list_elem_of_fmap. simpl in Hj. subst j.
  apply elem_of_indexed in Hin as [Hin E'].
  apply Hk. rewrite (array_index_inj _ _ _ E E').
  by apply list_elem_of_fmap_2.
Qed.

Lemma Object_entries_perm o : Object_entries o ≡ₚ o.
Proof.
  unfold Object_entries.
  rewrite Array_sort_perm, indexed_values.
  rewrite (List.filter_ext
             (λ kv : string * V,
                match array_index kv.1 with Some _ => false | None => true end)
             (λ kv, negb (is_index kv))).
  - apply filter_split_perm.
  - intros kv. unfold is_index. by destruct (array_index kv.1).
Qed.

(** The keys come out in the order of enumeration. *)
Lemma Object_entries_order (before : relation string) o :
  NoDup o.*1 →
  StronglySorted before o.*1 →
  StronglySorted (enumeration before) (Object_entries o).*1.
Proof.
  intros Hnd Hs. unfold Object_entries. rewrite fmap_app.
  apply StronglySorted_app_2.
  - intros k1 k2 ([i kv1] & -> & H1)%list_elem_of_fmap
                 ([k v] & -> & H2)%list_elem_of_fmap.
    apply list_elem_of_fmap in H1 as ([j kv] & E & H1). simpl in E. subst kv.
    rewrite Array_sort_perm in H1. apply elem_of_indexed in H1 as [_ H1].
    apply list_elem_of_In, List.filter_In in H2 as [_ H2].
    unfold enumeration. simpl in *. rewrite H1.
    destruct (array_index k); done.
  - rewrite <- list_fmap_compose.
    apply (StronglySorted_fmap_elem _
             (stable_order (λ e, Z.of_N e.1) (λ e1 e2, e1.1 ≠ e2.1)));
      [|apply Array_sort_sorted].
    + intros [i kv1] [j kv2] H1 H2 H. simpl.
      rewrite Array_sort_perm in H1, H2.
      apply elem_of_indexed in H1 as [_ H1]. apply elem_of_indexed in H2 as [_ H2].
      unfold enumeration. rewrite H1, H2.
      destruct H as [H|[H H']]; simpl in *; [lia|].
      exfalso. apply H'. lia.
    + reflexivity.
    + apply StronglySorted_of_fmap with (f := fst) (R := (≠)).
      apply NoDup_StronglySorted, indexed_NoDup, Hnd.
  - apply (StronglySorted_fmap_elem fst (λ e1 e2, before e1.1 e2.1));
      [|apply StronglySorted_filter, StronglySorted_of_fmap, Hs].
    intros [k1 v1] [k2 v2] H1 H2 H. simpl in *.
    apply list_elem_of_In, List.filter_In in H1 as [_ H1].
    apply list_elem_of_In, List.filter_In in H2 as [_ H2].
    unfold enumeration. simpl in *.
    destruct (array_index k1); [discriminate|].
    destruct (array_index k2); [discriminate|]. exact H.
Qed.

End Objects.

(** *** First appearances *)

Lemma first_index_absent (k : string) (l : list string) :
  k ∉ l → first_index k l = length l.
Proof.
  induction l as [|k' l IH]; [reflexivity|].
  intros [Hne Hl]%not_elem_of_cons. simpl.
  rewrite decide_False by congruence. f_equal. auto.
Qed.

Lemma first_index_present (k : string) (l : list string) :
  k ∈ l → (first_index k l < length l)%nat.
Proof.
  induction l as [|k' l IH]; intros Hin; [by apply elem_of_nil in Hin|].
  simpl. destruct (decide (k' = k)); [lia|].
  apply elem_of_cons in Hin as [->|Hin]; [done|].
  specialize (IH Hin). lia.
Qed.

Lemma first_index_app (k : string) (l l' : list string) :
  k ∈ l → first_index k (l ++ l') = first_index k l.
Proof.
  induction l as [|k' l IH]; intros Hin; [by apply elem_of_nil in Hin|].
  simpl. destruct (decide (k' = k)); [reflexivity|].
  apply elem_of_cons in Hin as [->|Hin]; [done|].
  f_equal. auto.
Qed.

Lemma first_index_snoc (k : string) (l : list string) :
  k ∉ l → first_index k (l ++ [k]) = length l.
Proof.
  induction l as [|k' l IH]; simpl.
  - intros _. by rewrite decide_True.
  - intros [Hne Hl]%not_elem_of_cons.
    rewrite decide_False by congruence. f_equal. auto.
Qed.

End JsFacts.

Module ChainMetadataFacts.
Import Js Simulation ChainMetadata Notions.

Lemma residueBounds_snoc (atoms : list Atom) (a : Atom) :
  residueBounds (atoms ++ [a]) =
    match residue_index a with
    | Some i => (Math_min (residueBounds atoms).1 (Finite i),
                 Math_max (residueBounds atoms).2 (Finite i))
    | None => residueBounds atoms
    end.
Proof. unfold residueBounds. rewrite foldl_snoc. reflexivity. Qed.

Lemma present_snoc (atoms : list Atom) (a : Atom) :
  present (atoms ++ [a]) =
    present atoms ++ match residue_index a with Some i => [i] | None => [] end.
Proof.
  unfold present. rewrite omap_app. simpl.
  destruct (residue_index a); reflexivity.
Qed.

(** The two bounds after the loop: untouched when no index is present,
    else the least and the greatest index present. *)
Lemma residueBounds_spec (atoms : list Atom) :
  match present atoms with
  | [] => residueBounds atoms = (Infinity, NegInfinity)
  | _ :: _ =>
      ∃ lo hi : Z,
        residueBounds atoms = (Finite lo, Finite hi)
        ∧ lo ∈ present atoms ∧ hi ∈ present atoms
        ∧ ∀ i, i ∈ present atoms → (lo ≤ i ≤ hi)%Z
  end.
Proof.
  induction atoms as [|a atoms IH] using rev_ind; [reflexivity|].
  rewrite present_snoc, residueBounds_snoc.
  destruct (residue_index a) as [i|].
  - destruct (present atoms) as [|p ps] eqn:Hp.
    + rewrite IH. simpl. exists i, i.
      split; [reflexivity|]. split; [left|]. split; [left|].
      intros j Hj%list_elem_of_singleton. lia.
    + destruct IH as (lo & hi & -> & Hlo & Hhi & Hall). simpl.
      exists (Z.min lo i), (Z.max hi i).
      split; [reflexivity|].
      change (p :: ps ++ [i]) with ((p :: ps) ++ [i]).
      split; [|split].
      * apply elem_of_app.
        destruct (Z.min_spec lo i) as [[_ ->]|[_ ->]]; [by left|right; left].
      * apply elem_of_app.
        destruct (Z.max_spec hi i) as [[_ ->]|[_ ->]]; [right; left|by left].
      * intros j [Hj|Hj%list_elem_of_singleton]%elem_of_app.
        -- specialize (Hall j Hj). lia.
        -- lia.
  - rewrite app_nil_r. exact IH.
Qed.

(** C4. The residue range of a group is {0, 0} when no particle of the
    group has a residue index; otherwise its ends are the least and the
    greatest of the indices that are present, the particles without an
    index playing no part. *)
Theorem residueRange_of_present_indices (atoms : list Atom) (chainId : string) :
  match present atoms with
  | [] =>
      residueRange (calculateChainInfo atoms chainId)
      = {| start := Finite 0; end_ := Finite 0 |}
  | _ :: _ =>
      ∃ lo hi : Z,
        residueRange (calculateChainInfo atoms chainId)
        = {| start := Finite lo; end_ := Finite hi |}
        ∧ lo ∈ present atoms ∧ hi ∈ present atoms
        ∧ ∀ i, i ∈ present atoms → (lo ≤ i ≤ hi)%Z
  end.
Proof.
  pose proof (residueBounds_spec atoms) as H.
  unfold calculateChainInfo. simpl.
  destruct (present atoms) as [|p ps].
  - rewrite H. reflexivity.
  - destruct H as (lo & hi & -> & Hrest).
    exists lo, hi. split; [reflexivity|exact Hrest].
Qed.

Lemma residueFrequency_snoc (atoms : list Atom) (a : Atom) :
  residueFrequency (atoms ++ [a]) =
    assign (residueFrequency atoms) (residue a)
      (bump (get (residueFrequency atoms) (residue a))).
Proof. unfold residueFrequency. rewrite foldl_snoc. reflexivity. Qed.

Lemma occurrences_snoc (k : string) (atoms : list Atom) (a : Atom) :
  occurrences k (atoms ++ [a]) =
    (occurrences k atoms + if decide (residue a = k) then 1 else 0)%nat.
Proof.
  unfold occurrences. rewrite filter_app, length_app. f_equal.
  rewrite filter_cons, filter_nil. by destruct (decide (residue a = k)).
Qed.

Lemma occurrences_absent (k : string) (atoms : list Atom) :
  k ∉ names atoms → occurrences k atoms = 0%nat.
Proof.
  intros H. unfold occurrences.
  destruct (filter _ atoms) as [|a l] eqn:E; [reflexivity|].
  assert (Ha : a ∈ filter (λ a, residue a = k) atoms) by (rewrite E; left).
  apply list_elem_of_filter in Ha as [<- Ha].
  exfalso. apply H. by apply list_elem_of_fmap_2.
Qed.

Lemma names_snoc (atoms : list Atom) (a : Atom) :
  names (atoms ++ [a]) = names atoms ++ [residue a].
Proof. unfold names. by rewrite fmap_app. Qed.

(** The counters after the loop, for a group none of whose residue names
    is an inherited property: one own property for each name of the group,
    created in the order of first appearance, that holds the number of
    particles bearing the name. *)
Lemma residueFrequency_spec (atoms : list Atom) :
  (∀ a, a ∈ atoms → inherited (residue a) = false) →
  NoDup (residueFrequency atoms).*1
  ∧ (∀ k, own (residueFrequency atoms) k =
            if decide (k ∈ names atoms)
            then Some (Num (Z.of_nat (occurrences k atoms))) else None)
  ∧ StronglySorted (first_before (names atoms)) (residueFrequency atoms).*1.
Proof.
  induction atoms as [|a atoms IH] using rev_ind; intros Hplain.
  - split; [constructor|]. split; [|constructor].
    intros k. rewrite decide_False by apply not_elem_of_nil. reflexivity.
  - destruct IH as (Hnd & Hown & Hs).
    { intros b Hb. apply Hplain. apply elem_of_app. by left. }
    assert (Ha : inherited (residue a) = false).
    { apply Hplain. apply elem_of_app. right. left. }
    assert (Hkeys : ∀ k, k ∈ (residueFrequency atoms).*1 ↔ k ∈ names atoms).
    { intros k. destruct (decide (k ∈ (residueFrequency atoms).*1)) as [Hk|Hk].
      - split; [intros _|done].
        destruct (decide (k ∈ names atoms)) as [|Hn]; [done|].
        exfalso. apply (proj1 (JsFacts.own_None _ _)) in Hk; [done|].
        rewrite Hown. by rewrite decide_False.
      - split; [done|]. intros Hn. exfalso.
        apply JsFacts.own_None in Hk. rewrite Hown, decide_True in Hk by done.
        discriminate. }
    rewrite residueFrequency_snoc, names_snoc.
    rewrite JsFacts.assign_put, JsFacts.get_own by exact Ha.
    set (o := residueFrequency atoms) in *.
    set (k0 := residue a) in *.
    split; [|split].
    + rewrite JsFacts.put_keys. destruct (decide (k0 ∈ o.*1)); [exact Hnd|].
      apply NoDup_app. split; [exact Hnd|]. split; [|apply NoDup_singleton].
      intros k Hk ->%list_elem_of_singleton. done.
    + intros k. rewrite JsFacts.own_put, occurrences_snoc. fold k0.
      destruct (decide (k0 = k)) as [<-|Hne].
      * rewrite decide_True by (apply elem_of_app; right; left).
        rewrite Hown. destruct (decide (k0 ∈ names atoms)) as [Hin|Hnin]; simpl.
        -- do 2 f_equal. lia.
        -- rewrite occurrences_absent by done. reflexivity.
      * rewrite Hown, Nat.add_0_r.
        destruct (decide (k ∈ names atoms)) as [Hin|Hnin].
        -- rewrite decide_True by (apply elem_of_app; by left). reflexivity.
        -- rewrite decide_False; [reflexivity|].
           intros [?|?%list_elem_of_singleton]%elem_of_app; congruence.
    + assert (Hold : StronglySorted (first_before (names atoms ++ [k0])) o.*1).
      { eapply JsFacts.StronglySorted_impl_elem; [|exact Hs].
        intros k1 k2 H1%Hkeys H2%Hkeys. unfold first_before.
        by rewrite !JsFacts.first_index_app. }
      rewrite JsFacts.put_keys. destruct (decide (k0 ∈ o.*1)) as [|Hnew]; [exact Hold|].
      apply JsFacts.StronglySorted_snoc; [exact Hold|].
      apply Forall_forall. intros k Hk%Hkeys. unfold first_before.
      rewrite JsFacts.first_index_app by done.
      rewrite JsFacts.first_index_snoc by (by rewrite <- Hkeys).
      by apply JsFacts.first_index_present.
Qed.

(** The entries of the counters after the sort: the names of the group,
    ranked by frequency and, among equally frequent names, by the order of
    enumeration. *)
Lemma sorted_entries_spec (atoms : list Atom) :
  (∀ a, a ∈ atoms → inherited (residue a) = false) →
  (∀ k, k ∈ (Array_sort by_frequency (Object_entries (residueFrequency atoms))).*1
        ↔ k ∈ names atoms)
  ∧ StronglySorted (outranks (enumeration (first_before (names atoms))) atoms)
      (Array_sort by_frequency (Object_entries (residueFrequency atoms))).*1.
Proof.
  intros Hplain.
  destruct (residueFrequency_spec atoms Hplain) as (Hnd & Hown & Hs).
  set (o := residueFrequency atoms) in *.
  assert (Hentry : ∀ e, e ∈ Object_entries o →
            e.1 ∈ names atoms ∧ e.2 = Num (Z.of_nat (occurrences e.1 atoms))).
  { intros [k v] He. rewrite JsFacts.Object_entries_perm in He.
    apply (JsFacts.elem_of_own _ _ _ Hnd) in He. rewrite Hown in He. simpl.
    destruct (decide (k ∈ names atoms)); [|discriminate].
    split; [done|congruence]. }
  split.
  - intros k. rewrite JsFacts.Array_sort_perm, JsFacts.Object_entries_perm.
    split.
    + intros ([k' v] & -> & He)%list_elem_of_fmap.
      apply (JsFacts.elem_of_own _ _ _ Hnd) in He. rewrite Hown in He. simpl.
      by destruct (decide (k' ∈ names atoms)).
    + intros Hk. specialize (Hown k). rewrite decide_True in Hown by done.
      apply JsFacts.own_Some in Hown.
      apply list_elem_of_fmap. by eexists (k, _).
  - apply (JsFacts.StronglySorted_fmap_elem fst
             (stable_order weight
                (λ e1 e2, enumeration (first_before (names atoms)) e1.1 e2.1))).
    + intros e1 e2 H1 H2 H. rewrite JsFacts.Array_sort_perm in H1, H2.
      destruct (Hentry e1 H1) as [_ E1], (Hentry e2 H2) as [_ E2].
      unfold stable_order, weight in H. rewrite E1, E2 in H.
      unfold outranks. destruct H as [H|[H H']]; [left; lia|right].
      split; [lia|exact H'].
    + apply JsFacts.Array_sort_sorted.
      * intros e1 e2 H1 H2.
        destruct (Hentry e1 H1) as [_ E1], (Hentry e2 H2) as [_ E2].
        unfold by_frequency, weight. rewrite E1, E2. lia.
      * apply JsFacts.StronglySorted_of_fmap.
        by apply JsFacts.Object_entries_order.
Qed.

Lemma outranks_ext (before before' : relation string) (atoms : list Atom)
    (k1 k2 : string) :
  (before k1 k2 → before' k1 k2) →
  outranks before atoms k1 k2 → outranks before' atoms k1 k2.
Proof. intros Hb [H|[H H']]; [by left|right; auto]. Qed.

Lemma ranked_by_ext (before before' : relation string) (atoms : list Atom)
    (top : list string) :
  (∀ k1 k2, k1 ∈ names atoms → k2 ∈ names atoms → before k1 k2 → before' k1 k2) →
  ranked_by before atoms top → ranked_by before' atoms top.
Proof.
  intros Hb (Hs & Hlen & Hin & Hout). split; [|split; [exact Hlen|split; [exact Hin|]]].
  - eapply JsFacts.StronglySorted_impl_elem; [|exact Hs].
    intros k1 k2 H1 H2. apply outranks_ext. apply Hb; auto.
  - intros k Hk Hnot. destruct (Hout k Hk Hnot) as [H5 Hall].
    split; [exact H5|]. intros k' Hk'.
    eapply outranks_ext; [|by apply Hall]. apply Hb; auto.
Qed.

(** C5, refuted as stated: in a group that holds ALA once and then the
    ligand 144 once, the list is 144, ALA, against the order of first
    appearance. *)
Lemma ties_follow_key_enumeration : ¬ ties_broken_by_first_appearance.
Proof.
  intros H. destruct (H ala_then_144 "A") as [Hs _].
  assert (E : commonResidues (calculateChainInfo ala_then_144 "A") = ["144"; "ALA"])
    by (vm_compute; reflexivity).
  rewrite E in Hs.
  apply StronglySorted_cons in Hs as [Hf _].
  apply Forall_cons in Hf as [[Hr|[_ Hr]] _]; vm_compute in Hr; lia.
Qed.

(** C5, amended. For a group none of whose residue names is the name of
    a property inherited from [Object.prototype], [commonResidues] holds
    the (at most five) most frequent residue names of the group by
    descending frequency, and ties between equally frequent names are
    broken by the order in which the keys of the counter object are
    enumerated: the names that are array indices first, in ascending
    numeric order, then the other names in the order of first appearance.
    When no name of the group is an array index, ties are thus broken by
    first appearance. *)
Theorem commonResidues_ranked_by_enumeration (atoms : list Atom) (chainId : string) :
  (∀ a, a ∈ atoms → residue a ∉ Object_prototype_keys) →
  ranked_by (enumeration (first_before (names atoms))) atoms
    (commonResidues (calculateChainInfo atoms chainId))
  ∧ ((∀ a, a ∈ atoms → array_index (residue a) = None) →
     ranked_by (first_before (names atoms)) atoms
       (commonResidues (calculateChainInfo atoms chainId))).
Proof.
  intros Hplain.
  assert (Hplain' : ∀ a, a ∈ atoms → inherited (residue a) = false).
  { intros a Ha. apply bool_decide_eq_false. auto. }
  destruct (sorted_entries_spec atoms Hplain') as [Hmem Hs].
  assert (Hranked : ranked_by (enumeration (first_before (names atoms))) atoms
                      (commonResidues (calculateChainInfo atoms chainId))).
  { simpl. unfold commonResiduesOf. rewrite fmap_take.
    set (L := (Array_sort by_frequency (Object_entries (residueFrequency atoms))).*1) in *.
    rewrite <- (take_drop 5 L) in Hs.
    split; [|split; [|split]].
    - by apply StronglySorted_app_1_l in Hs.
    - rewrite length_take. lia.
    - intros k Hk. apply Hmem. rewrite <- (take_drop 5 L).
      apply elem_of_app. by left.
    - intros k Hk Hnot. apply Hmem in Hk.
      rewrite <- (take_drop 5 L) in Hk.
      apply elem_of_app in Hk as [Hk|Hk]; [done|].
      split.
      + apply length_take_le.
        destruct (decide (5 ≤ length L)%nat) as [|Hshort]; [done|].
        rewrite drop_ge in Hk by lia. by apply elem_of_nil in Hk.
      + intros k' Hk'. by apply (StronglySorted_app_1_elem_of _ _ _ _ _ Hs). }
  split; [exact Hranked|].
  intros Hnoidx. eapply ranked_by_ext; [|exact Hranked].
  intros k1 k2 (a1 & -> & H1)%list_elem_of_fmap (a2 & -> & H2)%list_elem_of_fmap.
  unfold enumeration. by rewrite (Hnoidx a1 H1), (Hnoidx a2 H2).
Qed.

Lemma commonResidues_ranked_by_enumeration_witness :
  (∀ a, a ∈ ala_then_144 → residue a ∉ Object_prototype_keys)
  ∧ ranked_by (enumeration (first_before (names ala_then_144))) ala_then_144
      (commonResidues (calculateChainInfo ala_then_144 "A")).
Proof.
  assert (H : ∀ a, a ∈ ala_then_144 → residue a ∉ Object_prototype_keys).
  { intros a Ha. apply (bool_decide_eq_false _).
    repeat (apply elem_of_cons in Ha as [->|Ha]; [vm_compute; reflexivity|]).
    by apply elem_of_nil in Ha. }
  split; [exact H|].
  exact (proj1 (commonResidues_ranked_by_enumeration ala_then_144 "A" H)).
Defined.

End ChainMetadataFacts.

Module MolecularViewFacts.
Import Js Simulation ChainMetadata MolecularView Notions.

Lemma inherited_spec (k : string) :
  inherited k = true ↔ k ∈ Object_prototype_keys.
Proof. unfold inherited. apply bool_decide_eq_true. Qed.

Lemma chainGroupsOf_snoc (atoms : list Atom) (a : Atom) :
  chainGroupsOf (atoms ++ [a]) =
    match chainGroupsOf atoms with
    | Returns chainGroups => group_atom chainGroups a
    | TypeError => TypeError
    end.
Proof. unfold chainGroupsOf. rewrite foldl_snoc. reflexivity. Qed.

Lemma ofChain_snoc (c : string) (atoms : list Atom) (a : Atom) :
  ofChain c (atoms ++ [a]) =
    ofChain c atoms ++ (if decide (chain a = c) then [a] else []).
Proof.
  unfold ofChain. rewrite filter_app. reflexivity.
Qed.

Lemma ofChain_nil_iff (c : string) (atoms : list Atom) :
  ofChain c atoms = [] ↔ c ∉ chain <$> atoms.
Proof.
  unfold ofChain. split.
  - intros H (a & -> & Ha)%list_elem_of_fmap.
    exact (filter_nil_not_elem_of (λ b, chain b = chain a) atoms a H eq_refl Ha).
  - intros H. destruct (filter _ atoms) as [|a l] eqn:E; [reflexivity|].
    assert (Ha : a ∈ filter (λ a, chain a = c) atoms) by (rewrite E; left).
    apply list_elem_of_filter in Ha as [<- Ha].
    exfalso. apply H. apply list_elem_of_fmap. eauto.
Qed.

(** The loop over the atoms of a frame: it ends with the groups exactly
    when no chain id names an inherited property, and the group of a chain
    id is then the list of the atoms of that chain, in frame order. *)
Lemma chains_snoc (c : string) (atoms : list Atom) (a : Atom) :
  c ∈ chain <$> atoms ++ [a] ↔ c ∈ chain <$> atoms ∨ c = chain a.
Proof.
  rewrite fmap_app, elem_of_app, fmap_cons, fmap_nil, list_elem_of_singleton.
  reflexivity.
Qed.

Lemma chainGroupsOf_spec (atoms : list Atom) :
  match chainGroupsOf atoms with
  | Returns chainGroups =>
      (∀ c, chainGroups !! c =
              if decide (c ∈ chain <$> atoms) then Some (ofChain c atoms) else None)
      ∧ ∀ a, a ∈ atoms → inherited (chain a) = false
  | TypeError => ∃ a, a ∈ atoms ∧ inherited (chain a) = true
  end.
Proof.
  induction atoms as [|a atoms IH] using rev_ind.
  - split.
    + intros c. rewrite lookup_empty, decide_False by apply not_elem_of_nil.
      reflexivity.
    + intros a Ha. by apply elem_of_nil in Ha.
  - rewrite chainGroupsOf_snoc.
    destruct (chainGroupsOf atoms) as [g|].
    2:{ destruct IH as (b & Hb & Hi). exists b.
        split; [apply elem_of_app; by left|done]. }
    destruct IH as [Hg Hok]. unfold group_atom, read.
    assert (Hlast : ∀ b, b ∈ atoms ++ [a] → b ∈ atoms ∨ b = a).
    { intros b [Hb|Hb%list_elem_of_singleton]%elem_of_app; auto. }
    assert (Hother : ∀ c, chain a ≠ c →
              (if decide (c ∈ chain <$> atoms ++ [a])
               then Some (ofChain c atoms ++ []) else None)
              = if decide (c ∈ chain <$> atoms)
                then Some (ofChain c atoms) else None).
    { intros c Hne. rewrite app_nil_r.
      destruct (decide (c ∈ chain <$> atoms)) as [Hc|Hc].
      - rewrite decide_True by (apply chains_snoc; by left). reflexivity.
      - rewrite decide_False; [reflexivity|].
        rewrite chains_snoc. intros [?|?]; congruence. }
    rewrite (Hg (chain a)).
    destruct (decide (chain a ∈ chain <$> atoms)) as [Hin|Hnin]; simpl.
    + rewrite (Hg (chain a)), decide_True by done.
      split.
      * intros c. rewrite ofChain_snoc.
        destruct (decide (chain a = c)) as [<-|Hne].
        -- rewrite lookup_insert_eq, decide_True by (apply chains_snoc; by right).
           reflexivity.
        -- rewrite lookup_insert_ne, Hg by done. symmetry. by apply Hother.
      * intros b [Hb| ->]%Hlast; [auto|].
        apply list_elem_of_fmap in Hin as (b & Hb & Hbin).
        rewrite Hb. auto.
    + destruct (inherited (chain a)) eqn:Hi; simpl.
      * rewrite (Hg (chain a)), decide_False by done.
        exists a. split; [apply elem_of_app; right; left|done].
      * rewrite lookup_insert_eq.
        split.
        -- intros c. rewrite ofChain_snoc.
           destruct (decide (chain a = c)) as [<-|Hne].
           ++ rewrite lookup_insert_eq, decide_True by (apply chains_snoc; by right).
              apply ofChain_nil_iff in Hnin. rewrite Hnin. reflexivity.
           ++ rewrite !lookup_insert_ne, Hg by done. symmetry. by apply Hother.
        -- intros b [Hb| ->]%Hlast; [auto|done].
Qed.

(** C3. Whenever the chain metadata of a frame is computed, the entry of
    every chain id of the frame holds as [atomCount] the number of
    particles of the frame whose chain is that id. The computation fails to
    return only on a frame with a chain id that names a property inherited
    from [Object.prototype], where [push] raises. *)
Theorem atomCount_is_chain_count (atoms : list Atom) :
  match chainMetadataMap (Some atoms) with
  | Returns metadataMap =>
      ∀ a, a ∈ atoms →
        ∃ info, metadataMap !! chain a = Some info
                ∧ chainId info = chain a
                ∧ atomCount info = N.of_nat (length (ofChain (chain a) atoms))
  | TypeError => ∃ a, a ∈ atoms ∧ chain a ∈ Object_prototype_keys
  end.
Proof.
  pose proof (chainGroupsOf_spec atoms) as H. unfold chainMetadataMap.
  destruct (chainGroupsOf atoms) as [g|].
  - destruct H as [Hg _]. intros a Ha.
    exists (calculateChainInfo (ofChain (chain a) atoms) (chain a)).
    rewrite map_lookup_imap, Hg, decide_True by (by apply list_elem_of_fmap_2).
    done.
  - destruct H as (a & Ha & Hi). exists a. split; [done|].
    by apply inherited_spec.
Qed.

Lemma groupSizes_insert (g : gmap string (list Atom)) (c : string) (l : list Atom) :
  g !! c = None →
  groupSizes (<[c := l]> g) = N.of_nat (length l) + groupSizes g.
Proof.
  intros H. unfold groupSizes.
  rewrite map_fold_insert_L; [reflexivity| |exact H].
  intros; lia.
Qed.

Lemma groupSizes_update (g : gmap string (list Atom)) (c : string) (l l' : list Atom) :
  g !! c = Some l →
  groupSizes (<[c := l']> g) + N.of_nat (length l)
  = groupSizes g + N.of_nat (length l').
Proof.
  intros H.
  rewrite <- (insert_id g c l H) at 2.
  rewrite <- (insert_delete_eq g c l'), <- (insert_delete_eq g c l).
  rewrite !groupSizes_insert by apply lookup_delete_eq.
  lia.
Qed.

Lemma totalAtomCount_groups (g : gmap string (list Atom)) :
  totalAtomCount (map_imap (λ c l, Some (calculateChainInfo l c)) g)
  = groupSizes g.
Proof.
  induction g as [|c l g Hc IH] using map_ind.
  - rewrite map_imap_empty. reflexivity.
  - rewrite map_imap_insert. rewrite groupSizes_insert by exact Hc.
    unfold totalAtomCount in *.
    rewrite map_fold_insert_L.
    + rewrite IH. reflexivity.
    + intros; lia.
    + rewrite map_lookup_imap, Hc. reflexivity.
Qed.

Lemma chainGroupsOf_sizes (atoms : list Atom) :
  match chainGroupsOf atoms with
  | Returns g => groupSizes g = N.of_nat (length atoms)
  | TypeError => True
  end.
Proof.
  induction atoms as [|a atoms IH] using rev_ind; [reflexivity|].
  rewrite chainGroupsOf_snoc.
  destruct (chainGroupsOf atoms) as [g|]; [|exact I].
  unfold group_atom, read.
  destruct (g !! chain a) as [l|] eqn:Hl; simpl.
  - rewrite Hl.
    pose proof (groupSizes_update g (chain a) l (l ++ [a]) Hl) as H.
    rewrite !length_app in *. simpl in *. lia.
  - destruct (inherited (chain a)); simpl.
    + rewrite Hl. exact I.
    + rewrite lookup_insert_eq, insert_insert_eq.
      rewrite groupSizes_insert by exact Hl.
      rewrite !length_app. simpl. lia.
Qed.

(** C10. The chain groups partition the frame: every particle lies in the
    group keyed by its chain and in no other, each group holds exactly the
    particles of its chain, and the [atomCount]s of the computed entries add
    up to the number of particles of the frame. As for C3, nothing is
    computed for a frame with a chain id that names an inherited
    property. *)
Theorem chain_groups_partition_frame (atoms : list Atom) :
  match chainGroupsOf atoms, chainMetadataMap (Some atoms) with
  | Returns chainGroups, Returns metadataMap =>
      (∀ a, a ∈ atoms → ∃ l, chainGroups !! chain a = Some l ∧ a ∈ l)
      ∧ (∀ c l, chainGroups !! c = Some l → l = ofChain c atoms)
      ∧ (∀ c l a, chainGroups !! c = Some l → a ∈ l → a ∈ atoms ∧ chain a = c)
      ∧ dom metadataMap = dom chainGroups
      ∧ totalAtomCount metadataMap = N.of_nat (length atoms)
  | TypeError, TypeError => ∃ a, a ∈ atoms ∧ chain a ∈ Object_prototype_keys
  | _, _ => False
  end.
Proof.
  pose proof (chainGroupsOf_spec atoms) as H.
  pose proof (chainGroupsOf_sizes atoms) as Hsize.
  unfold chainMetadataMap.
  destruct (chainGroupsOf atoms) as [g|].
  - destruct H as [Hg _].
    assert (Hgroup : ∀ c l, g !! c = Some l → l = ofChain c atoms).
    { intros c l Hl. rewrite Hg in Hl. case_decide; congruence. }
    split; [|split; [exact Hgroup|split; [|split]]].
    + intros a Ha. exists (ofChain (chain a) atoms).
      rewrite Hg, decide_True by (apply list_elem_of_fmap; eauto).
      split; [reflexivity|]. apply list_elem_of_filter. done.
    + intros c l a Hl Ha. rewrite (Hgroup c l Hl) in Ha.
      apply list_elem_of_filter in Ha as [Hc Ha]. done.
    + apply set_eq. intros c. rewrite !elem_of_dom, map_lookup_imap.
      destruct (g !! c); simpl; split; intros [? ?]; eauto; discriminate.
    + rewrite totalAtomCount_groups. exact Hsize.
  - destruct H as (a & Ha & Hi). exists a. split; [done|].
    by apply inherited_spec.
Qed.

End MolecularViewFacts.

Module GPUAtomRendererFacts.
Import ComputePipeline GPUAtomRenderer Notions.

Ltac handlers :=
  unfold step, adapterResolved, deviceResolved, shaderLoaded, shaderFailed,
    useFrame, updateMesh, mapped, mapFailed, setAtoms, setEnabled, unmount,
    effects, startPipeline, createBuffers, initEffect, init, cleanup,
    destroyed.

Lemma passes_emit (done : list action) (c : component) :
  passes (emit done c) = (passes c + length (List.filter is_pass done))%nat.
Proof. unfold passes. simpl. rewrite List.filter_app, length_app. reflexivity. Qed.





End GPUAtomRendererFacts.

Module PlaygroundFacts.
Import Simulation PdbParser Playground Notions.

Lemma ticks_S (n : nat) (st : state) : ticks (S n) st = tick (ticks n st).
Proof. reflexivity. Qed.

Lemma tick_trajectory (st : state) : trajectory (tick st) = trajectory st.
Proof. unfold tick. destruct (isPlaying st); reflexivity. Qed.

Lemma tick_isPlaying (st : state) : isPlaying (tick st) = isPlaying st.
Proof. unfold tick. destruct (isPlaying st) eqn:E; simpl; congruence. Qed.

Lemma tick_totalFrames (st : state) : totalFrames (tick st) = totalFrames st.
Proof. unfold totalFrames. rewrite tick_trajectory. reflexivity. Qed.

Lemma tick_playing (st : state) (i : N) :
  isPlaying st = true → currentFrame st = Some i → 0 < totalFrames st →
  currentFrame (tick st) = Some ((i + 1) mod totalFrames st).
Proof.
  intros Hp Hi Ht. unfold tick, remainder. rewrite Hp, Hi. simpl.
  destruct (N.eqb_spec (totalFrames st) 0); [lia|reflexivity].
Qed.

(** C8. While the page is playing, a firing of the timer takes the frame
    index [i] to [(i + 1) mod count], where [count] is the number of frames
    the trajectory holds: to [i + 1] before the last frame, and from the
    last frame back to 0. Playback goes on for ever: after any number of
    firings the page is still playing and the index has gone round the
    trajectory. *)
Theorem tick_advances_modulo_frame_count (st : state) (i : N) :
  isPlaying st = true →
  currentFrame st = Some i →
  0 < N.of_nat (length (frames (trajectory st))) →
  currentFrame (tick st)
  = Some ((i + 1) mod N.of_nat (length (frames (trajectory st))))
  ∧ (i + 1 < N.of_nat (length (frames (trajectory st))) →
     currentFrame (tick st) = Some (i + 1))
  ∧ (i + 1 = N.of_nat (length (frames (trajectory st))) →
     currentFrame (tick st) = Some 0)
  ∧ ∀ n : nat,
      isPlaying (ticks (S n) st) = true
      ∧ currentFrame (ticks (S n) st)
        = Some ((i + 1 + N.of_nat n)
                mod N.of_nat (length (frames (trajectory st)))).
Proof.
  intros Hp Hi Ht.
  change (N.of_nat (length (frames (trajectory st)))) with (totalFrames st) in *.
  pose proof (tick_playing st i Hp Hi Ht) as H1.
  split; [exact H1|]. split; [|split].
  - intros E. rewrite H1, N.mod_small by exact E. reflexivity.
  - intros E. rewrite H1, E, N.Div0.mod_same. reflexivity.
  - induction n as [|n [IHp IHc]].
    + simpl. rewrite tick_isPlaying, N.add_0_r. done.
    + rewrite ticks_S. split.
      * rewrite tick_isPlaying. exact IHp.
      * assert (Ht' : totalFrames (ticks (S n) st) = totalFrames st).
        { clear. induction (S n) as [|m IH]; [reflexivity|].
          rewrite ticks_S, tick_totalFrames. exact IH. }
        rewrite (tick_playing _ _ IHp IHc) by (rewrite Ht'; exact Ht).
        rewrite Ht'. f_equal.
        rewrite N.Div0.add_mod_idemp_l. f_equal. lia.
Qed.

Lemma tick_advances_modulo_frame_count_witness :
  num_frames (metadata (trajectory at_last_frame)) = 5
  ∧ length (frames (trajectory at_last_frame)) = 5%nat
  ∧ isPlaying at_last_frame = true
  ∧ currentFrame at_last_frame = Some 4
  ∧ currentFrame (tick at_last_frame) = Some 0
  ∧ currentFrame (ticks 3 at_last_frame) = Some 2.
Proof.
  destruct (tick_advances_modulo_frame_count at_last_frame 4
              eq_refl eq_refl eq_refl) as (_ & _ & Hwrap & Hloop).
  split; [reflexivity|]. split; [reflexivity|].
  split; [reflexivity|]. split; [reflexivity|].
  split; [exact (Hwrap eq_refl)|exact (proj2 (Hloop 2%nat))].
Defined.

(** Every document [parsePDB] builds holds one frame, with as many
    particles as its metadata announce. *)
Lemma parsePDB_well_formed (parseFloat : string → float) (content fileName : string) :
  well_formed (parsePDB parseFloat content fileName)
  ∧ length (frames (parsePDB parseFloat content fileName)) = 1%nat.
Proof.
  split; [|reflexivity].
  unfold well_formed, parsePDB. simpl.
  constructor; [reflexivity|constructor].
Qed.

(** C6, refuted as stated: a document with a frame shorter than its
    metadata announce replaces the trajectory on display. *)
Lemma malformed_document_is_accepted : ¬ malformed_document_rejected.
Proof.
  intros H.
  specialize (H short_frame (mount five_frames)).
  assert (Hbad : ¬ well_formed short_frame).
  { intros Hw. apply Forall_cons in Hw as [Hw _]. vm_compute in Hw. discriminate. }
  specialize (H Hbad). apply (f_equal frames) in H.
  vm_compute in H. discriminate.
Qed.

(** C6, amended. No particle count is checked at load time: the store
    takes the document it is handed as a whole, whatever its frames hold,
    and so does the page for the trajectory it is mounted on. The documents
    that reach the store from the uploader are built by [parsePDB]
    and hold one frame with exactly [metadata.num_atoms] particles. A drop
    either leaves the trajectory on display untouched (the read was aborted
    or failed) or replaces it by the parsed document as a whole. *)
Theorem load_is_unchecked_and_wholesale :
  (∀ (data : TrajectoryData) (st : state),
     trajectory (setTrajectory data st) = data)
  ∧ (∀ defaultTrajectory : TrajectoryData,
       trajectory (mount defaultTrajectory) = defaultTrajectory)
  ∧ (∀ (parseFloat : string → float) (content fileName : string),
       well_formed (parsePDB parseFloat content fileName)
       ∧ length (frames (parsePDB parseFloat content fileName)) = 1%nat)
  ∧ (∀ (parseFloat : string → float) (fileName : string) (r : reading) (st : state),
       trajectory (onDrop parseFloat fileName r st) =
         match r with
         | Loaded textStr => parsePDB parseFloat textStr fileName
         | Aborted | Failed => trajectory st
         end).
Proof.
  split; [reflexivity|]. split; [reflexivity|].
  split; [exact parsePDB_well_formed|].
  intros parseFloat fileName [| |textStr] st; reflexivity.
Qed.

(** C7, refuted as stated: a chain selected before a load is still
    selected after it. *)
Lemma selection_survives_load : ¬ selection_reset_on_load.
Proof.
  intros H.
  specialize (H (λ _, 0%float) "1abc.pdb" "END"
                (handleChainSelect "A" (mount five_frames))).
  vm_compute in H. discriminate.
Qed.

(** C7, amended. A load leaves the selection as it was: the chain id
    selected after the drop of a file is the one selected before it, while
    the frame index goes back to 0 and playback starts. The selection is
    none when the page is mounted and after a deselect. *)
Theorem load_keeps_selection :
  (∀ (parseFloat : string → float) (fileName : string) (r : reading) (st : state),
     selectedChain (onDrop parseFloat fileName r st) = selectedChain st)
  ∧ (∀ (parseFloat : string → float) (fileName textStr : string) (st : state),
       currentFrame (onDrop parseFloat fileName (Loaded textStr) st) = Some 0
       ∧ isPlaying (onDrop parseFloat fileName (Loaded textStr) st) = true)
  ∧ (∀ d : TrajectoryData, selectedChain (mount d) = None)
  ∧ (∀ st : state, selectedChain (handleChainDeselect st) = None).
Proof.
  split; [intros parseFloat fileName [| |textStr] st; reflexivity|].
  split; [intros; split; reflexivity|].
  split; reflexivity.
Qed.

End PlaygroundFacts.

(** * Further properties of the sources *)

Module GridFacts.
Import ComputePipeline AtomUpdate Grid Notions.

Lemma main_atomsIn (idx : N) (b : buffers) : atomsIn (main idx b).1 = atomsIn b.
Proof.
  unfold main. destruct (_ <=? _); [reflexivity|].
  destruct (atomsIn b !! N.to_nat idx); reflexivity.
Qed.

Lemma main_length (idx : N) (b : buffers) :
  length (atomsOut (main idx b).1) = length (atomsOut b).
Proof.
  unfold main. destruct (_ <=? _); [reflexivity|].
  destruct (atomsIn b !! N.to_nat idx); [|reflexivity].
  simpl. apply length_insert.
Qed.

(** What one invocation leaves in [atomsOut], cell by cell. *)
Lemma main_lookup (idx : N) (b : buffers) (i : nat) :
  length (atomsOut b) = length (atomsIn b) →
  atomsOut (main idx b).1 !! i =
    if decide (N.to_nat idx = i) then atomsIn b !! i else atomsOut b !! i.
Proof.
  intros Hlen. unfold main, arrayLength.
  destruct (N.leb_spec (N.of_nat (length (atomsIn b))) idx) as [Hge|Hlt].
  - destruct (decide (N.to_nat idx = i)) as [<-|]; [|reflexivity].
    simpl. rewrite !lookup_ge_None_2 by lia. reflexivity.
  - destruct (atomsIn b !! N.to_nat idx) as [v|] eqn:Hv.
    + simpl. destruct (decide (N.to_nat idx = i)) as [<-|Hne].
      * rewrite list_lookup_insert_eq by lia. by rewrite Hv.
      * by rewrite list_lookup_insert_ne.
    + apply lookup_ge_None in Hv. lia.
Qed.

(** X1. Whatever its index, an invocation reads and writes inside the
    bounds of the input array only: it never changes [atomsIn] or the length
    of [atomsOut], and each access it makes is at its own index, which is
    then below the length of [atomsIn]. *)
Theorem main_stays_in_bounds (idx : N) (b : buffers) :
  atomsIn (main idx b).1 = atomsIn b
  ∧ length (atomsOut (main idx b).1) = length (atomsOut b)
  ∧ ∀ a, a ∈ (main idx b).2 → index_of a = idx ∧ idx < arrayLength (atomsIn b).
Proof.
  split; [apply main_atomsIn|]. split; [apply main_length|].
  intros a. unfold main.
  destruct (N.leb_spec (arrayLength (atomsIn b)) idx) as [Hge|Hlt].
  - intros Ha. by apply elem_of_nil in Ha.
  - destruct (atomsIn b !! N.to_nat idx); simpl.
    + intros [->|[->|Ha%elem_of_nil]%elem_of_cons]%elem_of_cons; done.
    + intros Ha. by apply elem_of_nil in Ha.
Qed.

Lemma runSchedule_snoc (ids : list N) (idx : N) (b : buffers) :
  runSchedule (ids ++ [idx]) b =
    ((main idx (runSchedule ids b).1).1,
     (runSchedule ids b).2 ++ (main idx (runSchedule ids b).1).2).
Proof. unfold runSchedule. rewrite foldl_snoc. reflexivity. Qed.

(** The cells of [atomsOut] after a schedule: the cells of the invocations
    that ran hold the input, the others what they held. *)
Lemma runSchedule_lookup (ids : list N) (b : buffers) :
  length (atomsOut b) = length (atomsIn b) →
  atomsIn (runSchedule ids b).1 = atomsIn b
  ∧ length (atomsOut (runSchedule ids b).1) = length (atomsOut b)
  ∧ ∀ i, atomsOut (runSchedule ids b).1 !! i =
           if decide (N.of_nat i ∈ ids) then atomsIn b !! i else atomsOut b !! i.
Proof.
  intros Hlen. induction ids as [|idx ids IH] using rev_ind.
  - split; [reflexivity|]. split; [reflexivity|]. intros i.
    rewrite decide_False by apply not_elem_of_nil. reflexivity.
  - destruct IH as (Hin & Hout & Hcells).
    rewrite runSchedule_snoc. cbn [fst].
    split; [by rewrite main_atomsIn|]. split; [by rewrite main_length|].
    intros i. rewrite main_lookup by congruence. rewrite Hin, Hcells.
    destruct (decide (N.to_nat idx = i)) as [<-|Hne].
    + rewrite decide_True; [reflexivity|].
      apply elem_of_app. right. rewrite N2Nat.id. left.
    + destruct (decide (N.of_nat i ∈ ids)) as [Hi|Hi].
      * rewrite decide_True by (apply elem_of_app; by left). reflexivity.
      * rewrite decide_False; [reflexivity|].
        intros [?|Hx%list_elem_of_singleton]%elem_of_app; [done|].
        apply Hne. rewrite <- Hx. apply Nat2N.id.
Qed.

Lemma invocations_cover (n : N) (i : nat) :
  (i < N.to_nat n)%nat → N.of_nat i ∈ invocations (numWorkgroups n).
Proof.
  intros Hi. unfold invocations. apply list_elem_of_fmap_2.
  apply elem_of_seq. split; [lia|].
  rewrite ComputePipelineFacts.numWorkgroups_div. unfold workgroupSize.
  pose proof (Z.div_mod (Z.of_N n + 63) 64 ltac:(lia)) as Hm.
  pose proof (Z.mod_pos_bound (Z.of_N n + 63) 64 ltac:(lia)) as Hb.
  lia.
Qed.

(** X2. The grid that [runComputePass] dispatches for [n] atoms reaches
    every atom: once its invocations have run, in whatever order, on buffers
    of [n] elements each, the output buffer is a copy of the input buffer
    and the input buffer is as it was. *)
Theorem dispatched_grid_copies_every_atom (b : buffers) (ids : list N) :
  length (atomsOut b) = length (atomsIn b) →
  ids ≡ₚ invocations (numWorkgroups (arrayLength (atomsIn b))) →
  (runSchedule ids b).1 = {| atomsIn := atomsIn b; atomsOut := atomsIn b |}.
Proof.
  intros Hlen Hids.
  destruct (runSchedule_lookup ids b Hlen) as (Hin & Hout & Hcells).
  destruct (runSchedule ids b).1 as [i' o'] eqn:E. simpl in *. subst i'.
  f_equal. apply list_eq. intros i. rewrite Hcells.
  destruct (decide (i < length (atomsIn b))%nat) as [Hi|Hi].
  - rewrite decide_True; [reflexivity|]. rewrite Hids.
    apply invocations_cover. unfold arrayLength. lia.
  - rewrite !lookup_ge_None_2 by lia. by destruct (decide _).
Qed.

Lemma dispatched_grid_copies_every_atom_witness :
  length (atomsOut one_atom) = length (atomsIn one_atom)
  ∧ reverse (invocations 1)
    ≡ₚ invocations (numWorkgroups (arrayLength (atomsIn one_atom)))
  ∧ (runSchedule (reverse (invocations 1)) one_atom).1
    = {| atomsIn := atomsIn one_atom; atomsOut := atomsIn one_atom |}.
Proof.
  split; [reflexivity|]. split; [apply reverse_Permutation|].
  apply (dispatched_grid_copies_every_atom one_atom (reverse (invocations 1)));
    [reflexivity|].
  apply reverse_Permutation.
Defined.

End GridFacts.

Module GenerateColorFacts.
Import GenerateColor MoreNotions.

Lemma ToInt32_range (z : Z) : (- 2 ^ 31 ≤ ToInt32 z < 2 ^ 31)%Z.
Proof.
  unfold ToInt32. pose proof (Z.mod_pos_bound z (2 ^ 32) ltac:(lia)).
  destruct (Z.ltb_spec (z mod 2 ^ 32) (2 ^ 31)); lia.
Qed.

Lemma ToInt32_wraps (z : Z) : ∃ k : Z, ToInt32 z = (z + k * 2 ^ 32)%Z.
Proof.
  unfold ToInt32. pose proof (Z.div_mod z (2 ^ 32) ltac:(lia)) as H.
  destruct (Z.ltb_spec (z mod 2 ^ 32) (2 ^ 31)).
  - exists (- (z / 2 ^ 32))%Z. lia.
  - exists (- (z / 2 ^ 32) - 1)%Z. lia.
Qed.

Lemma ToInt32_plus (z k : Z) : ToInt32 (z + k * 2 ^ 32) = ToInt32 z.
Proof. unfold ToInt32. by rewrite Z_mod_plus_full. Qed.

Lemma mix_polynomial (hash char p : Z) :
  hash = ToInt32 p → mix hash char = ToInt32 (31 * p + char).
Proof.
  intros ->. unfold mix, and, shl. rewrite Z.land_diag.
  rewrite Z.shiftl_mul_pow2 by lia.
  destruct (ToInt32_wraps p) as [k1 H1].
  destruct (ToInt32_wraps (ToInt32 p)) as [k2 H2].
  destruct (ToInt32_wraps (ToInt32 (ToInt32 p) * 2 ^ 5)) as [k3 H3].
  rewrite H3, H2, H1.
  rewrite <- (ToInt32_plus (31 * p + char) (31 * k1 + 32 * k2 + k3)).
  f_equal. lia.
Qed.

Lemma foldl_mix_polynomial (codes : list Z) :
  foldl mix 0%Z codes = ToInt32 (polynomial31 codes).
Proof.
  induction codes as [|c codes IH] using rev_ind; [reflexivity|].
  unfold polynomial31 in *. rewrite !foldl_snoc.
  by apply mix_polynomial.
Qed.

(** X3. [hashString] is the absolute value of the polynomial in 31 of the
    character codes, wrapped to a signed 32-bit integer: each turn of the
    loop computes [hash * 31 + char] as its comment says. The result lies
    between 0 and 2^31, both included: the absolute value of -2^31 does not
    fit a signed 32-bit integer any more. *)
Theorem hashString_is_wrapped_polynomial (str : string) :
  hashString str = Z.abs (ToInt32 (polynomial31 (charCodes str)))
  ∧ (0 ≤ hashString str ≤ 2 ^ 31)%Z.
Proof.
  unfold hashString. rewrite foldl_mix_polynomial.
  split; [reflexivity|].
  pose proof (ToInt32_range (polynomial31 (charCodes str))). lia.
Qed.

End GenerateColorFacts.

Module ColorsFacts.
Import Simulation Colors MoreNotions.

Lemma two_digits_all : forallb two_digits (seq 0 256) = true.
Proof. vm_compute. reflexivity. Qed.

Lemma toHex_integer (z : Z) :
  String.length (toHex (integer z)) = 2%nat
  ∧ hex_value 0 (toHex (integer z)) = Some (clamp255 z).
Proof.
  assert (E : toHex (integer z) = toHex (integer (Z.of_nat (Z.to_nat (clamp255 z))))).
  { unfold toHex. cbn [Math_min Math_max]. unfold clamp255.
    rewrite Z2Nat.id by lia.
    replace (Z.max 0 (Z.min 255 (Z.max 0 (Z.min 255 z))))
      with (Z.max 0 (Z.min 255 z)) by lia.
    reflexivity. }
  pose proof two_digits_all as H. rewrite forallb_forall in H.
  specialize (H (Z.to_nat (clamp255 z))).
  rewrite E. unfold two_digits in H.
  apply andb_true_iff in H as [H1 H2].
  - apply Nat.eqb_eq in H1. apply bool_decide_eq_true in H2.
    split; [exact H1|]. rewrite H2. f_equal.
    apply Z2Nat.id. unfold clamp255. lia.
  - apply in_seq. unfold clamp255. lia.
Qed.

Lemma toHex_prints_clamped_value_aux (n : numeric) :
  n ≠ not_a_number →
  String.length (toHex n) = 2%nat ∧ hex_value 0 (toHex n) = Some (channel n).
Proof.
  destruct n as [| | |z]; intros H; [done|split; reflexivity..|].
  apply toHex_integer.
Qed.

(** X4. [toHex] clamps before it prints: for every number that is not
    [NaN] it returns exactly two lowercase digits to the base 16, which read
    back as the number clamped to 0..255 (255 for [Infinity], 0 for
    [-Infinity]); for [NaN] it returns the three letters NaN. *)
Theorem toHex_prints_clamped_value (n : numeric) :
  match n with
  | not_a_number => toHex n = "NaN"
  | _ => String.length (toHex n) = 2%nat
         ∧ hex_value 0 (toHex n) = Some (channel n)
  end.
Proof.
  destruct n as [| | |z];
    [reflexivity|split; reflexivity|split; reflexivity|apply toHex_integer].
Qed.

Lemma hex_value_app (s1 s2 : string) (acc v : Z) :
  hex_value acc s1 = Some v → hex_value acc (s1 +:+ s2) = hex_value v s2.
Proof.
  revert acc. induction s1 as [|c s1 IH]; intros acc; simpl.
  - by intros [= ->].
  - destruct (hex_value_of c); [apply IH|discriminate].
Qed.

Lemma hex_value_two (s : string) (acc v : Z) :
  String.length s = 2%nat → hex_value 0 s = Some v →
  hex_value acc s = Some (256 * acc + v)%Z.
Proof.
  destruct s as [|c1 [|c2 [|c3 s]]]; try discriminate. intros _. simpl.
  destruct (hex_value_of c1); [|discriminate].
  destruct (hex_value_of c2); [|discriminate].
  intros [= <-]. f_equal. lia.
Qed.

Lemma length_append (s1 s2 : string) :
  String.length (s1 +:+ s2) = (String.length s1 + String.length s2)%nat.
Proof. induction s1 as [|c s1 IH]; simpl; [reflexivity|by rewrite IH]. Qed.

(** X5. When none of its channels rounds to [NaN], the string [rgbToHex]
    returns for a colour is a hash sign and six digits to the base 16 that
    read back as the three channels, each multiplied by 255, rounded and
    clamped to 0..255. *)
Theorem rgbToHex_reads_back (color : RGBColor) :
  Math_round (r color * 255)%float ≠ not_a_number →
  Math_round (g color * 255)%float ≠ not_a_number →
  Math_round (b color * 255)%float ≠ not_a_number →
  ∃ digits : string,
    rgbToHex (Some color) = String "#" digits
    ∧ String.length digits = 6%nat
    ∧ hex_value 0 digits =
        Some (65536 * channel (Math_round (r color * 255)%float)
              + 256 * channel (Math_round (g color * 255)%float)
              + channel (Math_round (b color * 255)%float))%Z.
Proof.
  intros Hr Hg Hb. eexists. split; [reflexivity|].
  pose proof (toHex_prints_clamped_value_aux (Math_round (r color * 255)%float) Hr) as [Lr Vr].
  pose proof (toHex_prints_clamped_value_aux (Math_round (g color * 255)%float) Hg) as [Lg Vg].
  pose proof (toHex_prints_clamped_value_aux (Math_round (b color * 255)%float) Hb) as [Lb Vb].
  split.
  - rewrite !length_append, Lr, Lg, Lb. reflexivity.
  - rewrite (hex_value_app _ _ _ _ Vr).
    rewrite (hex_value_app _ _ _ _ (hex_value_two _ _ _ Lg Vg)).
    rewrite (hex_value_two _ _ _ Lb Vb). f_equal. lia.
Qed.

Lemma rgbToHex_reads_back_witness :
  ∃ digits : string,
    rgbToHex (Some {| r := 1; g := 0.5; b := 0 |}%float) = String "#" digits
    ∧ String.length digits = 6%nat
    ∧ hex_value 0 digits = Some (65536 * 255 + 256 * 128 + 0)%Z.
Proof.
  apply (rgbToHex_reads_back {| r := 1; g := 0.5; b := 0 |}%float);
    vm_compute; discriminate.
Defined.

End ColorsFacts.

Module BackboneViewFacts.
Import Js Simulation MolecularView BackboneView Notions MoreNotions.

Lemma backbone_chains_snoc (atoms : list Atom) (a : Atom) :
  chains (Some (atoms ++ [a])) =
    match chains (Some atoms) with
    | Returns groups => group_backbone groups a
    | TypeError => TypeError
    end.
Proof. unfold chains. rewrite foldl_snoc. reflexivity. Qed.

(** The backbone groups are the chain groups of the alpha carbons. *)
Lemma chains_alphaCarbons (atoms : list Atom) :
  chains (Some atoms) = chainGroupsOf (alphaCarbons atoms).
Proof.
  induction atoms as [|a atoms IH] using rev_ind; [reflexivity|].
  rewrite backbone_chains_snoc, IH. unfold alphaCarbons, group_backbone.
  rewrite filter_app, filter_cons, filter_nil.
  destruct (String.eqb_spec (name a) "CA") as [E|E].
  - rewrite decide_True by done.
    by rewrite MolecularViewFacts.chainGroupsOf_snoc.
  - rewrite decide_False by done. rewrite app_nil_r.
    by destruct (chainGroupsOf _).
Qed.

(** X6. The groups [BackboneView] draws are those of the alpha carbons
    alone: the group of a chain id holds the atoms named CA of that chain in
    frame order, a chain without such an atom has no group, and an atom that
    is not an alpha carbon never makes the grouping fail, whatever its chain
    id. *)
Theorem backbone_groups_hold_alpha_carbons (atoms : list Atom) :
  match chains (Some atoms) with
  | Returns groups =>
      ∀ c, groups !! c =
             if decide (c ∈ chain <$> alphaCarbons atoms)
             then Some (ofChain c (alphaCarbons atoms)) else None
  | TypeError =>
      ∃ a, a ∈ atoms ∧ name a = "CA"%string ∧ chain a ∈ Object_prototype_keys
  end.
Proof.
  rewrite chains_alphaCarbons.
  pose proof (MolecularViewFacts.chainGroupsOf_spec (alphaCarbons atoms)) as H.
  destruct (chainGroupsOf (alphaCarbons atoms)) as [g|].
  - by destruct H.
  - destruct H as (a & [Hca Ha]%list_elem_of_filter & Hi).
    exists a. split; [done|]. split; [done|].
    by apply MolecularViewFacts.inherited_spec.
Qed.

End BackboneViewFacts.

Module InfoPanelFacts.
Import Js Simulation ChainMetadata MolecularView InfoPanel Notions MoreNotions.

Lemma metadata_lookup (atoms : list Atom) (m : gmap string ChainInfo) :
  chainMetadataMap (Some atoms) = Returns m →
  ∀ c, m !! c =
         if decide (c ∈ chain <$> atoms)
         then Some (calculateChainInfo (ofChain c atoms) c) else None.
Proof.
  unfold chainMetadataMap.
  pose proof (MolecularViewFacts.chainGroupsOf_spec atoms) as H.
  destruct (chainGroupsOf atoms) as [g|]; [|discriminate].
  destruct H as [Hg _]. intros [= <-] c.
  rewrite map_lookup_imap, Hg. by destruct (decide _).
Qed.

Lemma metadata_keys_plain (atoms : list Atom) (m : gmap string ChainInfo) :
  chainMetadataMap (Some atoms) = Returns m →
  ∀ a, a ∈ atoms → inherited (chain a) = false.
Proof.
  unfold chainMetadataMap.
  pose proof (MolecularViewFacts.chainGroupsOf_spec atoms) as H.
  destruct (chainGroupsOf atoms) as [g|]; [|discriminate].
  by destruct H.
Qed.

(** X7. What the info panel is given for a selection, on a frame whose
    metadata were computed: for a chain id of the frame that is not the
    empty string, the entry of that chain with its exact particle count;
    for a chain id that is neither in the frame nor the name of an
    inherited property, [undefined], for which the panel shows nothing and
    nothing is raised; for the empty chain id [null], even when the frame
    has particles of that chain. *)
Theorem onSelectInfo_finds_the_chain (atoms : list Atom) (m : gmap string ChainInfo) :
  chainMetadataMap (Some atoms) = Returns m →
  (∀ a, a ∈ atoms → chain a ≠ ""%string →
     ∃ info, onSelectInfo (Some (chain a)) m = found (Own info)
             ∧ chainId info = chain a
             ∧ atomCount info = N.of_nat (length (ofChain (chain a) atoms))
             ∧ ChainInfoPanel (found (Own info)) (totalChains m)
               = Returns (Some (info, totalChains m)))
  ∧ (∀ c, c ∉ chain <$> atoms → c ∉ Object_prototype_keys → c ≠ ""%string →
       onSelectInfo (Some c) m = found Undefined
       ∧ ChainInfoPanel (onSelectInfo (Some c) m) (totalChains m) = Returns None)
  ∧ onSelectInfo (Some ""%string) m = null
  ∧ onSelectInfo None m = null.
Proof.
  intros Hm. pose proof (metadata_lookup atoms m Hm) as Hl.
  split; [|split; [|split; reflexivity]].
  - intros a Ha Hne.
    exists (calculateChainInfo (ofChain (chain a) atoms) (chain a)).
    split; [|done].
    unfold onSelectInfo, entry. rewrite Hl.
    rewrite decide_True by (by apply list_elem_of_fmap_2).
    by destruct (chain a).
  - intros c Hc Hp Hne.
    assert (E : onSelectInfo (Some c) m = found Undefined).
    { unfold onSelectInfo, entry. rewrite Hl, decide_False by done.
      unfold inherited. rewrite bool_decide_eq_false_2 by done.
      by destruct c. }
    by rewrite E.
Qed.

Lemma onSelectInfo_finds_the_chain_witness :
  ∃ m, chainMetadataMap (Some three_particles) = Returns m
       ∧ (∃ info, onSelectInfo (Some "A"%string) m = found (Own info)
                  ∧ atomCount info = 2)
       ∧ onSelectInfo (Some "B"%string) m = found Undefined
       ∧ onSelectInfo (Some ""%string) m = null.
Proof.
  destruct (chainMetadataMap (Some three_particles)) as [m|] eqn:Hm;
    [|vm_compute in Hm; discriminate].
  exists m. split; [reflexivity|].
  destruct (onSelectInfo_finds_the_chain three_particles m Hm)
    as (Hin & Hout & Hempty & _).
  split; [|split; [|exact Hempty]].
  - destruct (Hin (carbon "ALA" "A" None)) as (info & Hi & _ & Hc & _);
      [left|discriminate|].
    exists info. split; [exact Hi|]. rewrite Hc. reflexivity.
  - apply Hout; [| |discriminate];
      apply (bool_decide_eq_false _); vm_compute; reflexivity.
Defined.

(** X8. The number of chains the panel is given is the number of distinct
    chain ids of the frame. *)
Theorem totalChains_counts_distinct_chain_ids (atoms : list Atom)
    (m : gmap string ChainInfo) :
  chainMetadataMap (Some atoms) = Returns m →
  totalChains m = N.of_nat (length (remove_dups (chain <$> atoms))).
Proof.
  intros Hm. pose proof (metadata_lookup atoms m Hm) as Hl.
  unfold totalChains. f_equal.
  rewrite <- size_dom.
  assert (E : dom m = list_to_set (remove_dups (chain <$> atoms))).
  { apply set_eq. intros c.
    rewrite elem_of_dom, elem_of_list_to_set, elem_of_remove_dups, Hl.
    destruct (decide (c ∈ chain <$> atoms)); split; intros H; try done. }
  rewrite E. apply size_list_to_set, NoDup_remove_dups.
Qed.

Lemma totalChains_counts_distinct_chain_ids_witness :
  ∃ m, chainMetadataMap (Some three_particles) = Returns m
       ∧ totalChains m = 2.
Proof.
  destruct (chainMetadataMap (Some three_particles)) as [m|] eqn:Hm;
    [|vm_compute in Hm; discriminate].
  exists m. split; [reflexivity|].
  rewrite (totalChains_counts_distinct_chain_ids three_particles m Hm).
  reflexivity.
Defined.

End InfoPanelFacts.

Module PlaybackFacts.
Import Simulation PdbParser Playground MolecularView Notions MoreNotions.

Lemma ticks_totalFrames (n : nat) (st : state) :
  totalFrames (ticks n st) = totalFrames st.
Proof.
  induction n as [|n IH]; [reflexivity|].
  rewrite PlaygroundFacts.ticks_S, PlaygroundFacts.tick_totalFrames. exact IH.
Qed.

Lemma ticks_isPlaying (n : nat) (st : state) :
  isPlaying (ticks n st) = isPlaying st.
Proof.
  induction n as [|n IH]; [reflexivity|].
  rewrite PlaygroundFacts.ticks_S, PlaygroundFacts.tick_isPlaying. exact IH.
Qed.

Lemma ticks_trajectory (n : nat) (st : state) :
  trajectory (ticks n st) = trajectory st.
Proof.
  induction n as [|n IH]; [reflexivity|].
  rewrite PlaygroundFacts.ticks_S, PlaygroundFacts.tick_trajectory. exact IH.
Qed.

(** The index after [n] firings, from an index inside the trajectory. *)
Lemma ticks_playing (st : state) (i : N) (n : nat) :
  isPlaying st = true → currentFrame st = Some i → i < totalFrames st →
  isPlaying (ticks n st) = true
  ∧ currentFrame (ticks n st) = Some ((i + N.of_nat n) mod totalFrames st).
Proof.
  intros Hp Hi Hlt. induction n as [|n [IHp IHc]].
  - split; [exact Hp|]. change (ticks 0 st) with st.
    rewrite Hi. change (N.of_nat 0) with 0.
    rewrite N.add_0_r, N.mod_small by exact Hlt. reflexivity.
  - rewrite PlaygroundFacts.ticks_S. split.
    + rewrite PlaygroundFacts.tick_isPlaying. exact IHp.
    + rewrite (PlaygroundFacts.tick_playing _ _ IHp IHc)
        by (rewrite ticks_totalFrames; lia).
      rewrite ticks_totalFrames. f_equal.
      rewrite N.Div0.add_mod_idemp_l. f_equal. lia.
Qed.

Lemma ticks_paused (st : state) (n : nat) :
  isPlaying st = false → ticks n st = st.
Proof.
  intros Hp. induction n as [|n IH]; [reflexivity|].
  rewrite PlaygroundFacts.ticks_S, IH. unfold tick. by rewrite Hp.
Qed.

(** X9. Playback never leaves the trajectory: from a frame index inside
    it, after any number of firings of the timer (playing or paused) the
    index is still inside it, and the view has a frame of the trajectory to
    draw. *)
Theorem playback_stays_inside_trajectory (st : state) (i : N) (n : nat) :
  currentFrame st = Some i →
  i < totalFrames st →
  ∃ j frame,
    currentFrame (ticks n st) = Some j
    ∧ j < totalFrames st
    ∧ currentAtoms (trajectory (ticks n st)) (currentFrame (ticks n st))
      = Some frame
    ∧ frames (trajectory st) !! N.to_nat j = Some frame.
Proof.
  intros Hi Hlt.
  assert (H : ∃ j, currentFrame (ticks n st) = Some j ∧ j < totalFrames st).
  { destruct (isPlaying st) eqn:Hp.
    - destruct (ticks_playing st i n Hp Hi Hlt) as [_ ->].
      eexists. split; [reflexivity|]. apply N.mod_lt. lia.
    - rewrite ticks_paused by exact Hp. eauto. }
  destruct H as (j & Hj & Hjlt).
  destruct (lookup_lt_is_Some_2 (frames (trajectory st)) (N.to_nat j))
    as [frame Hf].
  { unfold totalFrames in Hjlt. lia. }
  exists j, frame. rewrite Hj, ticks_trajectory. simpl. done.
Qed.

Lemma playback_stays_inside_trajectory_witness :
  currentFrame at_last_frame = Some 4
  ∧ 4 < totalFrames at_last_frame
  ∧ ∃ j frame,
      currentFrame (ticks 7 at_last_frame) = Some j
      ∧ j < totalFrames at_last_frame
      ∧ currentAtoms (trajectory (ticks 7 at_last_frame))
          (currentFrame (ticks 7 at_last_frame)) = Some frame
      ∧ frames (trajectory at_last_frame) !! N.to_nat j = Some frame.
Proof.
  split; [reflexivity|]. split; [reflexivity|].
  apply (playback_stays_inside_trajectory at_last_frame 4 7); reflexivity.
Defined.

(** X10. Playback is periodic: while the page plays, as many firings of
    the timer as the trajectory has frames bring the frame index back to
    where it was. *)
Theorem playback_comes_round (st : state) (i : N) :
  isPlaying st = true →
  currentFrame st = Some i →
  i < totalFrames st →
  currentFrame (ticks (N.to_nat (totalFrames st)) st) = Some i.
Proof.
  intros Hp Hi Hlt.
  destruct (ticks_playing st i (N.to_nat (totalFrames st)) Hp Hi Hlt) as [_ ->].
  f_equal. rewrite N2Nat.id.
  rewrite <- N.Div0.add_mod_idemp_r, N.Div0.mod_same, N.add_0_r.
  by apply N.mod_small.
Qed.

Lemma playback_comes_round_witness :
  isPlaying at_last_frame = true
  ∧ currentFrame at_last_frame = Some 4
  ∧ 4 < totalFrames at_last_frame
  ∧ currentFrame (ticks 5 at_last_frame) = Some 4.
Proof.
  split; [reflexivity|]. split; [reflexivity|]. split; [reflexivity|].
  exact (playback_comes_round at_last_frame 4 eq_refl eq_refl eq_refl).
Defined.

(** X11. On a trajectory without frames the index is lost at the first
    firing of the timer and stays lost: it is [NaN] after every firing, the
    view has no frame to draw, and no chain metadata are computed. *)
Theorem playback_without_frames (st : state) (n : nat) :
  isPlaying st = true →
  totalFrames st = 0 →
  currentFrame (ticks (S n) st) = None
  ∧ currentAtoms (trajectory (ticks (S n) st)) (currentFrame (ticks (S n) st))
    = None
  ∧ chainMetadataMap
      (currentAtoms (trajectory (ticks (S n) st)) (currentFrame (ticks (S n) st)))
    = Returns ∅.
Proof.
  intros Hp Ht.
  assert (Hc : currentFrame (ticks (S n) st) = None).
  { rewrite PlaygroundFacts.ticks_S. unfold tick, remainder.
    rewrite ticks_isPlaying, ticks_totalFrames, Hp, Ht. simpl.
    by destruct (currentFrame (ticks n st)). }
  rewrite Hc. done.
Qed.

Lemma playback_without_frames_witness :
  isPlaying (mount (document 0 [])) = true
  ∧ totalFrames (mount (document 0 [])) = 0
  ∧ currentFrame (ticks 3 (mount (document 0 []))) = None.
Proof.
  split; [reflexivity|]. split; [reflexivity|].
  exact (proj1 (playback_without_frames (mount (document 0 [])) 2 eq_refl eq_refl)).
Defined.

(** X12. After the drop of a PDB file the page shows the one frame the
    parser built, for good: whatever the file held and however often the
    timer fires, the page plays, the index is 0 and the view is given the
    atoms of the parsed file. *)
Theorem uploaded_file_stays_on_display (parseFloat : string → float)
    (fileName textStr : string) (st : state) (n : nat) :
  let loaded := ticks n (onDrop parseFloat fileName (Loaded textStr) st) in
  isPlaying loaded = true
  ∧ currentFrame loaded = Some 0
  ∧ currentAtoms (trajectory loaded) (currentFrame loaded)
    = Some (atoms (scanLines parseFloat (split textStr))).
Proof.
  set (st' := onDrop parseFloat fileName (Loaded textStr) st).
  assert (Ht : totalFrames st' = 1) by reflexivity.
  destruct (ticks_playing st' 0 n eq_refl eq_refl) as [Hp Hc]; [by rewrite Ht|].
  rewrite Ht in Hc. simpl.
  split; [exact Hp|]. rewrite Hc, N.mod_1_r.
  split; [reflexivity|]. rewrite ticks_trajectory. reflexivity.
Qed.

End PlaybackFacts.

Module ChainInfoFacts.
Import Js Simulation ChainMetadata Notions MoreNotions.

Lemma uniqueResidues_present (atoms : list Atom) :
  uniqueResidues atoms = list_to_set (present atoms).
Proof.
  induction atoms as [|a atoms IH] using rev_ind; [reflexivity|].
  unfold uniqueResidues in *. rewrite foldl_snoc, IH.
  rewrite ChainMetadataFacts.present_snoc.
  destruct (residue_index a) as [i|].
  - rewrite list_to_set_snoc_L. apply union_comm_L.
  - by rewrite app_nil_r.
Qed.

Lemma present_length (atoms : list Atom) :
  (length (present atoms) ≤ length atoms)%nat.
Proof.
  induction atoms as [|a atoms IH]; [reflexivity|].
  unfold present in *. cbn. destruct (residue_index a); simpl; lia.
Qed.

Lemma size_list_to_set_dups (l : list Z) :
  size (list_to_set (C := gset Z) l) = length (remove_dups l).
Proof.
  rewrite <- (size_list_to_set (C := gset Z) (remove_dups l))
    by apply NoDup_remove_dups.
  f_equal. apply set_eq. intros x.
  by rewrite !elem_of_list_to_set, elem_of_remove_dups.
Qed.

(** X13. [residueCount] is the number of distinct residue indices that are
    present in the group. It never exceeds the number of particles, nor the
    width of the residue range reported beside it, whose ends are always
    finite with the start not above the end. *)
Theorem residueCount_counts_distinct_indices (atoms : list Atom) (chainId : string) :
  let info := calculateChainInfo atoms chainId in
  residueCount info = N.of_nat (length (remove_dups (present atoms)))
  ∧ residueCount info ≤ atomCount info
  ∧ ∃ lo hi : Z,
      residueRange info = {| start := Finite lo; end_ := Finite hi |}
      ∧ (lo ≤ hi)%Z
      ∧ (Z.of_N (residueCount info) ≤ hi - lo + 1)%Z.
Proof.
  simpl. rewrite uniqueResidues_present, size_list_to_set_dups.
  split; [reflexivity|]. split.
  - pose proof (present_length atoms).
    assert (Hsub : remove_dups (present atoms) ⊆+ present atoms).
    { apply NoDup_submseteq; [apply NoDup_remove_dups|].
      intros i. by rewrite elem_of_remove_dups. }
    apply submseteq_length in Hsub. lia.
  - pose proof (ChainMetadataFacts.residueBounds_spec atoms) as H.
    assert (Hwidth : ∀ lo hi : Z,
              (∀ i, i ∈ present atoms → (lo ≤ i ≤ hi)%Z) → (lo ≤ hi)%Z →
              (Z.of_nat (length (remove_dups (present atoms))) ≤ hi - lo + 1)%Z).
    { intros lo hi Hall Hle.
      assert (Hsub : remove_dups (present atoms) ⊆+ seqZ lo (hi - lo + 1)).
      { apply NoDup_submseteq; [apply NoDup_remove_dups|].
        intros i Hi. rewrite elem_of_remove_dups in Hi. apply elem_of_seqZ.
        specialize (Hall i Hi). lia. }
      apply submseteq_length in Hsub. rewrite length_seqZ in Hsub. lia. }
    remember (length (remove_dups (present atoms))) as count eqn:Hcount.
    clear Hcount.
    destruct (present atoms) as [|p ps] eqn:Hp.
    + rewrite H. exists 0%Z, 0%Z. simpl. split; [reflexivity|].
      specialize (Hwidth 0%Z 0%Z). split; [lia|].
      rewrite nat_N_Z. apply Hwidth; [|lia].
      intros i Hi. by apply elem_of_nil in Hi.
    + destruct H as (lo & hi & -> & Hlo & Hhi & Hall). exists lo, hi. simpl.
      split; [reflexivity|].
      assert (lo ≤ hi)%Z by (specialize (Hall lo Hlo); lia).
      split; [done|]. rewrite nat_N_Z. by apply Hwidth.
Qed.

Lemma residueFrequency_keys (atoms : list Atom) :
  NoDup (residueFrequency atoms).*1
  ∧ (∀ k, k ∈ (residueFrequency atoms).*1 →
       k ∈ names atoms ∧ k ≠ "__proto__"%string).
Proof.
  induction atoms as [|a atoms [Hnd Hin]] using rev_ind.
  - split; [constructor|]. intros k Hk. by apply elem_of_nil in Hk.
  - rewrite ChainMetadataFacts.residueFrequency_snoc, ChainMetadataFacts.names_snoc.
    unfold assign.
    destruct (String.eqb_spec (residue a) "__proto__") as [E|E].
    + split; [exact Hnd|]. intros k Hk. destruct (Hin k Hk).
      split; [apply elem_of_app; by left|done].
    + rewrite JsFacts.put_keys.
      destruct (decide (residue a ∈ (residueFrequency atoms).*1)).
      * split; [exact Hnd|]. intros k Hk. destruct (Hin k Hk).
        split; [apply elem_of_app; by left|done].
      * split.
        -- apply NoDup_app. split; [exact Hnd|]. split; [|apply NoDup_singleton].
           intros k Hk ->%list_elem_of_singleton. done.
        -- intros k [Hk| ->%list_elem_of_singleton]%elem_of_app.
           ++ destruct (Hin k Hk). split; [apply elem_of_app; by left|done].
           ++ split; [apply elem_of_app; right; left|done].
Qed.

(** X14. Whatever the residue names of a group are, [commonResidues]
    never lists a name twice, never lists more than five names, lists
    residue names of the group only, and never lists the name __proto__,
    for which no counter is ever kept. *)
Theorem commonResidues_are_distinct_names (atoms : list Atom) (chainId : string) :
  let top := commonResidues (calculateChainInfo atoms chainId) in
  NoDup top
  ∧ (length top ≤ 5)%nat
  ∧ ∀ k, k ∈ top → k ∈ names atoms ∧ k ≠ "__proto__"%string.
Proof.
  simpl. unfold commonResiduesOf. rewrite fmap_take.
  destruct (residueFrequency_keys atoms) as [Hnd Hin].
  set (L := (Array_sort by_frequency (Object_entries (residueFrequency atoms))).*1).
  assert (HL : L ≡ₚ (residueFrequency atoms).*1).
  { unfold L. by rewrite JsFacts.Array_sort_perm, JsFacts.Object_entries_perm. }
  split; [|split].
  - apply (sublist_NoDup _ L); [by rewrite HL|apply sublist_take].
  - rewrite length_take. lia.
  - intros k Hk. apply Hin. rewrite <- HL.
    apply (elem_of_sublist _ _ _ Hk), sublist_take.
Qed.

End ChainInfoFacts.

Module RendererFacts.
Import ComputePipeline GPUAtomRenderer Notions MoreNotions.

Ltac handlers :=
  unfold step, adapterResolved, deviceResolved, shaderLoaded, shaderFailed,
    useFrame, updateMesh, mapped, mapFailed, setAtoms, setEnabled, unmount,
    effects, startPipeline, createBuffers, initEffect, init, cleanup,
    destroyed.

(** *** One pass for each frame at most *)

Lemma step_passes (c : component) (e : event) :
  (passes (step c e) ≤ passes c + (if is_frame e then 1 else 0))%nat.
Proof.
  destruct c. unfold passes.
  destruct e; handlers; simpl; repeat case_match; simpl;
    rewrite ?List.filter_app, ?length_app; simpl; lia.
Qed.

Lemma run_passes (es : list event) (c : component) :
  (passes (run c es) ≤ passes c + rendered es)%nat.
Proof.
  revert c. induction es as [|e es IH]; intros c; [simpl; lia|].
  simpl. specialize (IH (step c e)). pose proof (step_passes c e) as H.
  unfold rendered in *. simpl. destruct (is_frame e); simpl; lia.
Qed.

(** *** No pass before the buffers, the pipeline and the bind group *)

Lemma set_up_app (done more : list action) : set_up done → set_up (done ++ more).
Proof.
  intros (i & o & ? & ? & ? & ?). exists i, o.
  rewrite !elem_of_app. auto.
Qed.

Lemma step_ready (c : component) (e : event) : ready c → ready (step c e).
Proof.
  destruct c. unfold ready, passes. simpl. intros (Hi & Ho & Hg & Hp).
  destruct e; handlers; simpl; repeat case_match; simpl;
    rewrite ?List.filter_app, ?length_app; simpl;
    try (split_and!; [exact Hi|exact Ho|exact Hg|exact Hp]);
    (split_and!;
     [ try (intros b Hb; try discriminate;
       rewrite ?elem_of_app, ?elem_of_cons; naive_solver)
     | try (intros b Hb; try discriminate;
       rewrite ?elem_of_app, ?elem_of_cons; naive_solver)
     | try first
         [ intros Hthere; repeat apply set_up_app; by apply Hg
         | intros _; eexists _, _; rewrite !elem_of_app, !elem_of_cons;
           split_and!;
           [ left; left; by apply Hi | left; left; by apply Ho
           | left; right; right; by left | right; right; by left ] ]
     | try first [ intros Hrun; apply Hp; lia | done ] ]).
Qed.

Lemma run_ready (es : list event) (c : component) : ready c → ready (run c es).
Proof.
  revert c. induction es as [|e es IH]; intros c H; [exact H|].
  apply IH, step_ready, H.
Qed.

Lemma mount_ready (gpu e : bool) (n : N) : ready (mount gpu e n).
Proof.
  unfold ready, passes, mount. handlers. simpl.
  repeat case_match; simpl; split_and!; intros; try discriminate; done.
Qed.

(** *** Nothing on the device without atoms *)

Lemma step_idle (c : component) (e : event) :
  keeps_empty e = true → idle c → idle (step c e).
Proof.
  destruct c. unfold idle. simpl.
  intros He (-> & -> & -> & -> & -> & -> & -> & Hl).
  destruct e; simpl in He; try (apply N.eqb_eq in He; subst n);
    handlers; simpl; rewrite ?orb_true_r; simpl;
    repeat (case_match; simpl in *; try discriminate);
    split_and?; try reflexivity; try exact Hl;
    rewrite ?Forall_app; split_and?; try exact Hl;
    repeat (apply Forall_cons; split); try apply Forall_nil;
    unfold acquires; auto.
Qed.

Lemma run_idle (es : list event) (c : component) :
  forallb keeps_empty es = true → idle c → idle (run c es).
Proof.
  revert c. induction es as [|e es IH]; intros c He H; [exact H|].
  simpl in He. apply andb_true_iff in He as [He Hes].
  apply IH; [exact Hes|]. by apply step_idle.
Qed.

Lemma mount_idle (gpu e : bool) : idle (mount gpu e 0).
Proof.
  unfold idle, mount. handlers. simpl. rewrite ?orb_true_r. simpl.
  repeat (case_match; simpl in *; try discriminate);
    split_and?; try reflexivity;
    repeat (apply Forall_cons; split); try apply Forall_nil;
    unfold acquires; auto.
Qed.

(** X15. What the renderer does on the device, from the moment it is
    mounted and whatever happens in whatever order. It never runs more
    compute passes than frames were rendered. It runs none before it has
    created an input buffer, an output buffer, the pipeline and a bind
    group on the two buffers. And for as long as its atom list is empty it
    creates no buffer, fetches no shader, sets up no pipeline and runs no
    pass: all it does is to acquire the adapter and the device. *)
Theorem passes_follow_the_setup (gpu e : bool) (n : N) (es : list event) :
  (passes (run (mount gpu e n) es) ≤ rendered es)%nat
  ∧ (passes (run (mount gpu e n) es) ≠ 0%nat →
     set_up (log (run (mount gpu e n) es)))
  ∧ (n = 0 → forallb keeps_empty es = true →
     Forall acquires (log (run (mount gpu e n) es))).
Proof.
  split; [|split].
  - pose proof (run_passes es (mount gpu e n)) as H.
    assert (passes (mount gpu e n) = 0%nat) as E; [|lia].
    unfold passes, mount. handlers. simpl. by repeat case_match.
  - intros H. destruct (run_ready es _ (mount_ready gpu e n)) as (_ & _ & Hg & Hp).
    apply Hg, Hp, H.
  - intros -> Hes. apply (run_idle es _ Hes (mount_idle gpu e)).
Qed.

Lemma passes_follow_the_setup_witness :
  set_up (log (run (mount true true 3)
                 [Frame; AdapterResolved true; DeviceResolved true;
                  ShaderLoaded; Frame; Frame]))
  ∧ Forall acquires
      (log (run (mount true true 0)
              [AdapterResolved true; DeviceResolved true; Frame; SetAtoms 0;
               Unmount])).
Proof.
  split.
  - apply (proj1 (proj2 (passes_follow_the_setup true true 3
                           [Frame; AdapterResolved true; DeviceResolved true;
                            ShaderLoaded; Frame; Frame]))).
    vm_compute. discriminate.
  - apply (proj2 (proj2 (passes_follow_the_setup true true 0
                           [AdapterResolved true; DeviceResolved true; Frame;
                            SetAtoms 0; Unmount]))); reflexivity.
Defined.

End RendererFacts.

Module PdbParserFacts.
Import Js Simulation ChainMetadata MolecularView PdbParser Notions MoreNotions.

(** *** Strings *)

Lemma substring_length (a n : nat) (s : string) :
  (String.length (String.substring a n s) ≤ n)%nat.
Proof.
  revert a n. induction s as [|c s IH]; intros [|a] [|n]; simpl; try lia.
  - specialize (IH 0%nat n). lia.
  - apply IH.
  - apply IH.
Qed.

Lemma trimStart_length (s : string) :
  (String.length (trimStart s) ≤ String.length s)%nat.
Proof.
  induction s as [|c s IH]; simpl; [lia|].
  destruct (Ascii.is_space c); simpl; lia.
Qed.

Lemma rev_app_length (s acc : string) :
  String.length (String.rev_app s acc) = (String.length s + String.length acc)%nat.
Proof.
  revert acc. induction s as [|c s IH]; intros acc; simpl; [reflexivity|].
  rewrite IH. simpl. lia.
Qed.

Lemma trim_length (s : string) : (String.length (trim s) ≤ String.length s)%nat.
Proof.
  unfold trim, String.rev. rewrite rev_app_length. simpl.
  pose proof (trimStart_length (String.rev_app (trimStart s) "")) as H.
  rewrite rev_app_length in H. simpl in H.
  pose proof (trimStart_length s). lia.
Qed.

Lemma dropFirstDigit_length (s : string) :
  (String.length (dropFirstDigit s) ≤ String.length s)%nat.
Proof.
  induction s as [|c s IH]; simpl; [lia|].
  destruct (is_digit c); simpl; lia.
Qed.

Lemma field_length (a b : nat) (line : string) :
  (String.length (trim (substring a b line)) ≤ b - a)%nat.
Proof.
  pose proof (trim_length (substring a b line)).
  pose proof (substring_length a (b - a) line). unfold substring in *. lia.
Qed.

(** Every name of an inherited property is at least seven characters
    long. *)
Lemma inherited_long (k : string) :
  k ∈ Object_prototype_keys → (7 ≤ String.length k)%nat.
Proof.
  unfold Object_prototype_keys. intros H.
  repeat (apply elem_of_cons in H as [->|H]; [simpl; lia|]).
  by apply elem_of_nil in H.
Qed.

(** [content.split('\n')] against [lines.join('\n')] *)
Lemma split_go_no_newline (s : string) :
  Forall (λ line, ∀ n, String.get n line ≠ Some "010"%char)
         ((split_go s).1 :: (split_go s).2).
Proof.
  induction s as [|c s IH]; simpl.
  - repeat constructor. by intros [|n].
  - destruct (Ascii.eqb_spec c "010") as [->|Hne]; simpl.
    + constructor; [by intros [|n]|exact IH].
    + apply Forall_cons in IH as [Hl Hr]. constructor; [|exact Hr].
      intros [|n]; simpl; [congruence|apply Hl].
Qed.

Section Parsed.
Variable parseFloat : string → float.

Lemma scanLine_other (st : scan) (line : string) :
  is_record line = false → scanLine parseFloat st line = st.
Proof. unfold scanLine, is_record. by intros ->. Qed.

Lemma scanLine_record (st : scan) (line : string) :
  is_record line = true →
  ∃ a, atoms (scanLine parseFloat st line) = atoms st ++ [a] ∧ from_columns a.
Proof.
  unfold scanLine, is_record. intros ->. eexists. split; [reflexivity|].
  unfold from_columns. cbn [element name residue chain residue_index].
  split; [|split; [|split; [|split]]];
    try apply (field_length 12 16); try apply (field_length 17 20);
    try apply (field_length 21 22); try reflexivity.
  unfold or_else.
  pose proof (field_length 76 78 line).
  pose proof (field_length 12 14 line).
  pose proof (dropFirstDigit_length (trim (substring 12 14 line))).
  destruct (trim (substring 76 78 line)); simpl in *; lia.
Qed.

Lemma scanFrom_records (st : scan) (lines : list string) :
  scanFrom parseFloat st lines = scanFrom parseFloat st (List.filter is_record lines).
Proof.
  revert st. induction lines as [|line lines IH]; intros st; [reflexivity|].
  simpl. destruct (is_record line) eqn:E; simpl.
  - apply IH.
  - rewrite scanLine_other by exact E. apply IH.
Qed.

Lemma scanFrom_atoms (st : scan) (lines : list string) :
  Forall from_columns (atoms st) →
  length (atoms (scanFrom parseFloat st lines))
  = (length (atoms st) + length (List.filter is_record lines))%nat
  ∧ Forall from_columns (atoms (scanFrom parseFloat st lines)).
Proof.
  revert st. induction lines as [|line lines IH]; intros st Hst.
  - simpl. split; [lia|exact Hst].
  - simpl. destruct (is_record line) eqn:E.
    + destruct (scanLine_record st line E) as (a & Ha & Hcols).
      destruct (IH (scanLine parseFloat st line)) as [Hlen Hall].
      { rewrite Ha. apply Forall_app. split; [exact Hst|by constructor]. }
      split; [|exact Hall]. rewrite Hlen, Ha, length_app. simpl. lia.
    + rewrite scanLine_other by exact E. by apply IH.
Qed.

(** X16. [parsePDB] reads the records only. The document it builds holds
    one frame with one particle for each line that opens with ATOM or
    HETATM, [num_atoms] being their number; two files with the same such
    lines give the same document; and a file without any gives an empty
    frame, boxed by [Infinity] as the least and [-Infinity] as the greatest
    corner, with the centre at the origin. *)
Theorem parsePDB_reads_records_only (content fileName : string) :
  (∃ frame,
     frames (parsePDB parseFloat content fileName) = [frame]
     ∧ length frame = length (records content)
     ∧ num_atoms (metadata (parsePDB parseFloat content fileName))
       = N.of_nat (length (records content)))
  ∧ (∀ content', records content' = records content →
       parsePDB parseFloat content' fileName
       = parsePDB parseFloat content fileName)
  ∧ (records content = [] →
       parsePDB parseFloat content fileName
       = {| metadata :=
              {| source := fileName;
                 title := None;
                 num_frames := 1;
                 num_atoms := 0;
                 bounds :=
                   {| min := {| cx := infinity; cy := infinity; cz := infinity |};
                      max := {| cx := neg_infinity; cy := neg_infinity;
                                cz := neg_infinity |};
                      center := {| cx := 0; cy := 0; cz := 0 |} |} |};
            frames := [[]] |}).
Proof.
  assert (Hscan : ∀ c, scanLines parseFloat (split c)
                      = scanLines parseFloat (records c)).
  { intros c. apply (scanFrom_records _ (split c)). }
  split; [|split].
  - eexists. split; [reflexivity|].
    destruct (scanFrom_atoms
                {| atoms := []; minX := infinity; minY := infinity;
                   minZ := infinity; maxX := neg_infinity;
                   maxY := neg_infinity; maxZ := neg_infinity;
                   sumX := 0; sumY := 0; sumZ := 0 |} (split content))
      as [Hlen _]; [constructor|].
    split; [exact Hlen|]. unfold parsePDB. simpl. f_equal. exact Hlen.
  - intros content' E. unfold parsePDB. by rewrite !Hscan, E.
  - intros E. unfold parsePDB. rewrite Hscan, E. reflexivity.
Qed.

Lemma present_none (l : list Atom) :
  Forall (λ a, residue_index a = None) l → present l = [].
Proof.
  induction 1 as [|a l Ha _ IH]; [reflexivity|].
  unfold present in *. cbn. by rewrite Ha.
Qed.

(** X17. The chain metadata of an uploaded file are always computed, and
    they never hold a residue range. In the frame [parsePDB] builds a chain
    id has at most one character and a residue name at most three, so that
    neither names an inherited property and the grouping does not raise; no
    particle has a residue index, so that every entry reports a residue
    count of 0 and the range {0, 0}. *)
Theorem uploaded_file_metadata (content fileName : string) :
  ∃ frame metadataMap,
    currentAtoms (parsePDB parseFloat content fileName) (Some 0) = Some frame
    ∧ chainMetadataMap (Some frame) = Returns metadataMap
    ∧ (∀ a, a ∈ frame →
         from_columns a
         ∧ (chain a ∉ Object_prototype_keys)
         ∧ (residue a ∉ Object_prototype_keys))
    ∧ (∀ c info, metadataMap !! c = Some info →
         residueCount info = 0
         ∧ residueRange info = {| start := Finite 0; end_ := Finite 0 |}).
Proof.
  set (frame := atoms (scanLines parseFloat (split content))).
  assert (Hcols : Forall from_columns frame).
  { apply (scanFrom_atoms _ (split content)). constructor. }
  rewrite Forall_forall in Hcols.
  assert (Hplain : ∀ a, a ∈ frame →
            (chain a ∉ Object_prototype_keys) ∧ (residue a ∉ Object_prototype_keys)).
  { intros a Ha. destruct (Hcols a Ha) as (_ & _ & Hr & Hc & _).
    split; intros H%inherited_long; lia. }
  destruct (chainMetadataMap (Some frame)) as [m|] eqn:Hm.
  2:{ exfalso. unfold chainMetadataMap in Hm.
      pose proof (MolecularViewFacts.chainGroupsOf_spec frame) as H.
      destruct (chainGroupsOf frame); [discriminate|].
      destruct H as (a & Ha & Hi%MolecularViewFacts.inherited_spec).
      by destruct (Hplain a Ha). }
  exists frame, m. split; [reflexivity|]. split; [exact Hm|]. split.
  - intros a Ha. split; [by apply Hcols|by apply Hplain].
  - intros c info Hinfo.
    rewrite (InfoPanelFacts.metadata_lookup frame m Hm) in Hinfo.
    destruct (decide (c ∈ chain <$> frame)); [|discriminate].
    injection Hinfo as <-.
    assert (Hnone : present (ofChain c frame) = []).
    { apply present_none, Forall_forall. intros a [_ Ha]%list_elem_of_filter.
      by destruct (Hcols a Ha) as (_ & _ & _ & _ & ?). }
    split.
    + simpl. by rewrite ChainInfoFacts.uniqueResidues_present, Hnone.
    + pose proof (ChainMetadataFacts.residueBounds_spec (ofChain c frame)) as H.
      rewrite Hnone in H. unfold calculateChainInfo. simpl. by rewrite H.
Qed.

(** A coordinate that is [NaN] stays in the bounds. *)
Lemma Math_min_nan_l (b : float) : Math_min nan b = nan.
Proof. reflexivity. Qed.

Lemma Math_max_nan_l (b : float) : PdbParser.Math_max nan b = nan.
Proof. reflexivity. Qed.

Lemma Math_min_nan_r (a b : float) : is_nan b = true → Math_min a b = nan.
Proof. intros H. unfold Math_min. rewrite H, orb_true_r. reflexivity. Qed.

Lemma Math_max_nan_r (a b : float) : is_nan b = true → PdbParser.Math_max a b = nan.
Proof. intros H. unfold PdbParser.Math_max. rewrite H, orb_true_r. reflexivity. Qed.

Lemma scanFrom_poisoned (st : scan) (lines : list string) :
  (minX st = nan → minX (scanFrom parseFloat st lines) = nan)
  ∧ (maxX st = nan → maxX (scanFrom parseFloat st lines) = nan).
Proof.
  revert st. induction lines as [|line lines IH]; intros st; [done|].
  simpl. destruct (IH (scanLine parseFloat st line)) as [Hmin Hmax].
  split; intros H; [apply Hmin|apply Hmax];
    unfold scanLine; destruct (_ || _); simpl; try exact H;
    rewrite H; reflexivity.
Qed.

Lemma scanFrom_nan (st : scan) (lines : list string) (line : string) :
  line ∈ lines → is_record line = true →
  is_nan (parseFloat (substring 30 38 line)) = true →
  minX (scanFrom parseFloat st lines) = nan ∧ maxX (scanFrom parseFloat st lines) = nan.
Proof.
  intros Hin Hrec Hnan. revert st.
  induction lines as [|l lines IH]; intros st; [by apply elem_of_nil in Hin|].
  apply elem_of_cons in Hin as [<-|Hin]; [|by apply IH].
  simpl. destruct (scanFrom_poisoned (scanLine parseFloat st line) lines)
    as [Hmin Hmax].
  unfold is_record in Hrec.
  split; [apply Hmin|apply Hmax]; unfold scanLine; rewrite Hrec; simpl.
  - by apply Math_min_nan_r.
  - by apply Math_max_nan_r.
Qed.

(** X18. A record whose x field does not read as a number is not turned
    down: its particle is counted like any other, and from then on the x
    coordinate of both corners of the bounding box is [NaN], whatever the
    other records hold. *)
Theorem unreadable_coordinate_poisons_bounds (content fileName line : string) :
  line ∈ split content →
  is_record line = true →
  is_nan (parseFloat (substring 30 38 line)) = true →
  let data := parsePDB parseFloat content fileName in
  num_atoms (metadata data) = N.of_nat (length (records content))
  ∧ cx (min (bounds (metadata data))) = nan
  ∧ cx (max (bounds (metadata data))) = nan.
Proof.
  intros Hin Hrec Hnan. simpl. split.
  - f_equal.
    destruct (scanFrom_atoms
                {| atoms := []; minX := infinity; minY := infinity;
                   minZ := infinity; maxX := neg_infinity;
                   maxY := neg_infinity; maxZ := neg_infinity;
                   sumX := 0; sumY := 0; sumZ := 0 |} (split content))
      as [Hlen _]; [constructor|exact Hlen].
  - by apply (scanFrom_nan _ (split content) line).
Qed.

End Parsed.

Lemma unreadable_coordinate_poisons_bounds_witness :
  let parseFloat := λ s : string, if String.eqb (trim s) "" then nan else 1%float in
  let data := parsePDB parseFloat "ATOM" "short.pdb" in
  num_atoms (metadata data) = 1
  ∧ cx (min (bounds (metadata data))) = nan
  ∧ cx (max (bounds (metadata data))) = nan.
Proof.
  apply (unreadable_coordinate_poisons_bounds _ "ATOM" "short.pdb" "ATOM");
    [left|reflexivity|reflexivity].
Defined.

(** X19. Splitting a text at its line feeds loses nothing: the lines,
    joined again by line feeds, are the text, and no line holds a line
    feed. *)
Theorem split_joins_back (content : string) :
  String.concat (String "010" "") (split content) = content
  ∧ Forall (λ line, ∀ n, String.get n line ≠ Some "010"%char) (split content).
Proof.
  split; [|apply split_go_no_newline].
  unfold split. induction content as [|c s IH]; [reflexivity|].
  simpl. destruct (Ascii.eqb_spec c "010") as [->|Hne]; cbn [fst snd].
  - cbn [String.concat]. simpl in IH. rewrite IH. reflexivity.
  - destruct (split_go s).2 as [|l r] eqn:E; simpl in *.
    + by rewrite IH.
    + exact (f_equal (String c) IH).
Qed.

End PdbParserFacts.

(** * The definitions at work on small inputs *)

Module Examples.
Import Js Simulation ChainMetadata MolecularView Notions.

(** Six residue names, GLY twice: the indices 7, 9 and 10 come before ALA
    although ALA was met first, and VAL falls off the list. *)
Example commonResidues_of_mixed_names :
  commonResiduesOf
    [ carbon "ALA" "A" None; carbon "GLY" "A" None; carbon "GLY" "A" None;
      carbon "7" "A" None; carbon "10" "A" None; carbon "9" "A" None;
      carbon "VAL" "A" None ]
  = ["GLY"; "7"; "9"; "10"; "ALA"].
Proof. vm_compute. reflexivity. Qed.

(** A residue index of 0 is an index like any other; a particle without
    one does not pull the range to 0. *)
Example residueRange_ignores_missing :
  residueRange
    (calculateChainInfo
       [ carbon "ALA" "A" None; carbon "GLY" "A" (Some 5%Z);
         carbon "GLY" "A" (Some 9%Z) ] "A")
  = {| start := Finite 5; end_ := Finite 9 |}.
Proof. vm_compute. reflexivity. Qed.

(** Three particles, two of them in chain A. *)
Example two_of_three_in_chain_A :
  match chainMetadataMap
          (Some [ carbon "ALA" "A" None; carbon "GLY" "B" None;
                  carbon "VAL" "A" None ]) with
  | Returns m => (atomCount <$> m !! "A", atomCount <$> m !! "B", m !! "C")
  | TypeError => (None, None, None)
  end = (Some 2, Some 1, None).
Proof. vm_compute. reflexivity. Qed.

(** A chain id that names an inherited property stops the grouping. *)
Example chain_named_constructor :
  chainMetadataMap (Some [ carbon "ALA" "constructor" None ]) = TypeError.
Proof. vm_compute. reflexivity. Qed.

(** An invocation in range copies its element. *)
Example main_in_range :
  AtomUpdate.main 0 one_atom
  = ({| AtomUpdate.atomsIn := AtomUpdate.atomsIn one_atom;
        AtomUpdate.atomsOut := AtomUpdate.atomsIn one_atom |},
     [AtomUpdate.Load_atomsIn 0; AtomUpdate.Store_atomsOut 0]).
Proof. vm_compute. reflexivity. Qed.

(** Two frames on a mounted renderer run no pass; once the device, the
    buffers and the pipeline are there, each frame runs one. *)
Example passes_of_a_run :
  GPUAtomRenderer.passes
    (GPUAtomRenderer.run (GPUAtomRenderer.mount true true 3)
       [ GPUAtomRenderer.Frame; GPUAtomRenderer.AdapterResolved true;
         GPUAtomRenderer.Frame; GPUAtomRenderer.DeviceResolved true;
         GPUAtomRenderer.ShaderLoaded;
         GPUAtomRenderer.Frame; GPUAtomRenderer.Frame ])
  = 2%nat.
Proof. vm_compute. reflexivity. Qed.

(** One ATOM record and one line that is none. *)
Example parsePDB_one_atom :
  let data :=
    PdbParser.parsePDB (λ _, 1%float)
      "HEADER
ATOM      2  CA  VAL A   1       6.913  17.759   4.607  1.00 43.14           C"
      "1abc.pdb" in
  (num_atoms (metadata data),
   (λ a, (element a, name a, residue a, chain a)) <$> concat (frames data))
  = (1, [("C", "CA", "VAL", "A")]).
Proof. vm_compute. reflexivity. Qed.

(** On a trajectory without frames the index turns into [NaN]. *)
Example tick_without_frames :
  Playground.currentFrame (Playground.tick (Playground.mount (document 0 [])))
  = None.
Proof. vm_compute. reflexivity. Qed.

End Examples.
